(** * UUID: a shallow embedding of the [UUID] class

    The class keeps a UUID as a [Uint8Array] and offers parsing from strings,
    byte arrays and other instances, validation predicates, formatting with
    memoised string views, equality and ordering.

    Modelling choices, all read off the TypeScript source:
    - a [Uint8Array] is a [list byte]; reading past its end gives
      [undefined], which is [None] here;
    - a JavaScript string is a [string] of 8-bit characters, its [length]
      the number of characters; code units above 255 are not represented
      (the class treats them like any character that is neither a hex digit
      nor a hyphen);
    - a [throw] is the [Throw] constructor of [result], one [Thrown] value
      per throw site;
    - the two cache fields of an instance are threaded explicitly: the
      formatting methods return the value together with the updated
      instance. *)

From Stdlib Require Import ZArith NArith List String Ascii Bool Lia.
From Stdlib Require Import Strings.Byte.
Import ListNotations.

Local Open Scope string_scope.

(** ** Exceptions *)

(** One constructor per [throw] of the source, one for the hex decoder and
    one for the TypeError of the engine on a property read of [undefined]. *)
Inductive Thrown : Type :=
| HexDecodeFailure                (* Uint8ArrayUtils.fromHex *)
| InvalidByteLength (got : nat)   (* version: "Invalid UUID byte length" *)
| HexLengthMismatch               (* formatHex: "hex length should be 32" *)
| InvalidStringLength             (* parse: "Invalid input string, length should be 36 or 32" *)
| NotExpectedInput                (* parse: "Not expected invalid input received" *)
| ExpectedUint8Array              (* parseBytes: TypeError *)
| TooFewUuids                     (* equals: "At least two UUIDs required for comparison" *)
| ReadOfUndefined.                (* isValidBytes: TypeError, [bytes.byteLength] with [bytes] undefined *)

(** The three error kinds of the design document. *)
Inductive ErrorKind : Type :=
| FormatError
| InvalidInputError
| InvalidArgumentError.

(** Every exception of the source is a plain [Error] (a [TypeError] in
    [parseBytes]); the kind is the one the design document gives to the
    situation the throw site guards. *)
Definition kind (e : Thrown) : ErrorKind :=
  match e with
  | HexDecodeFailure => FormatError
  | InvalidByteLength _ => FormatError
  | HexLengthMismatch => FormatError
  | InvalidStringLength => FormatError
  | NotExpectedInput => InvalidInputError
  | ExpectedUint8Array => InvalidInputError
  | TooFewUuids => InvalidArgumentError
  | ReadOfUndefined => InvalidInputError
  end.

Inductive result (A : Type) : Type :=
| Return (a : A)
| Throw (e : Thrown).

Arguments Return {A} a.
Arguments Throw {A} e.

Definition bind {A B : Type} (m : result A) (k : A -> result B) : result B :=
  match m with
  | Return a => k a
  | Throw e => Throw e
  end.

Notation "x <- m ;; k" := (bind m (fun x => k))
  (at level 61, m at next level, right associativity).

(** [returns m] holds when the call completes normally. *)
Definition returns {A : Type} (m : result A) : Prop := exists a, m = Return a.

(** [throws_kind k m] holds when the call throws an exception of kind [k]. *)
Definition throws_kind {A : Type} (k : ErrorKind) (m : result A) : Prop :=
  exists e, m = Throw e /\ kind e = k.

(** ** Typed arrays and numbers *)

Definition Uint8Array : Type := list byte.

(** [new Uint8Array(n)]: [n] zero bytes. *)
Definition new_Uint8Array (n : nat) : Uint8Array := repeat x00 n.

(** [arr.fill(v)]. *)
Definition fill (arr : Uint8Array) (v : byte) : Uint8Array := map (fun _ => v) arr.

(** [new Uint8Array(src)]: a fresh array holding the same bytes. *)
Definition copy_Uint8Array (src : Uint8Array) : Uint8Array := map (fun b => b) src.

Definition byteLength (arr : Uint8Array) : nat := List.length arr.

(** [arr[i]]: a number in 0..255, or [undefined] out of range. *)
Definition index (arr : Uint8Array) (i : nat) : option byte := nth_error arr i.

(** ToInt32 on an element read: [undefined] becomes 0. *)
Definition toInt32 (x : option byte) : Z :=
  match x with
  | Some b => Z.of_N (Byte.to_N b)
  | None => 0%Z
  end.

(** [x !== y] on element reads. *)
Definition strict_neq (x y : option byte) : bool :=
  match x, y with
  | Some a, Some b => negb (Byte.eqb a b)
  | None, None => false
  | _, _ => true
  end.

(** [x < y] on element reads: [undefined] converts to NaN, and every
    comparison with NaN is false. *)
Definition js_lt (x y : option byte) : bool :=
  match x, y with
  | Some a, Some b => (Byte.to_N a <? Byte.to_N b)%N
  | _, _ => false
  end.

(** ** Regular expressions

    The two patterns of the class are anchored sequences of counted
    character classes; such a pattern is matched left to right without
    backtracking. *)

Inductive ClassItem : Type :=
| Single (c : ascii)
| Range (lo hi : ascii).

Inductive Atom : Type :=
| Lit (c : ascii)
| OneOf (items : list ClassItem).

(** [(a, n)] stands for [a{n}]; the whole list is read between [^] and [$]. *)
Definition RegExp : Type := list (Atom * nat).

Definition item_matches (i : ClassItem) (c : ascii) : bool :=
  match i with
  | Single d => Ascii.eqb c d
  | Range lo hi => (N_of_ascii lo <=? N_of_ascii c)%N && (N_of_ascii c <=? N_of_ascii hi)%N
  end.

Definition atom_matches (a : Atom) (c : ascii) : bool :=
  match a with
  | Lit d => Ascii.eqb c d
  | OneOf items => existsb (fun i => item_matches i c) items
  end.

Fixpoint match_counted (a : Atom) (n : nat) (s : string) : option string :=
  match n with
  | O => Some s
  | S n' =>
      match s with
      | String c rest => if atom_matches a c then match_counted a n' rest else None
      | EmptyString => None
      end
  end.

Fixpoint match_anchored (r : RegExp) (s : string) : bool :=
  match r with
  | [] => match s with EmptyString => true | _ => false end
  | (a, n) :: r' =>
      match match_counted a n s with
      | Some rest => match_anchored r' rest
      | None => false
      end
  end.

(** [re.test(s)]. *)
Definition test (re : RegExp) (s : string) : bool := match_anchored re s.

(** [[0-9a-fA-F]] *)
Definition hexClass : Atom := OneOf [Range "0" "9"; Range "a" "f"; Range "A" "F"].
(** [[1-5]] *)
Definition versionClass : Atom := OneOf [Range "1" "5"].
(** [[89abAB]] *)
Definition variantClass : Atom :=
  OneOf [Single "8"; Single "9"; Single "a"; Single "b"; Single "A"; Single "B"].

(** ** The byte codec [Uint8ArrayUtils]

    The module [./utils] is not part of the sources at hand; its two
    functions are taken from the design document. *)

Module Uint8ArrayUtils.

(** Modelled from the spec: the value of one hex digit, either case
    (helper of [Uint8ArrayUtils.fromHex], which is missing). *)
Definition hexDigitValue (c : ascii) : option N :=
  let n := N_of_ascii c in
  if (48 <=? n)%N && (n <=? 57)%N then Some (n - 48)%N
  else if (97 <=? n)%N && (n <=? 102)%N then Some (n - 87)%N
  else if (65 <=? n)%N && (n <=? 70)%N then Some (n - 55)%N
  else None.

(** Modelled from the spec: "decodes pairs of hex digits" (helper of
    [Uint8ArrayUtils.fromHex], which is missing). *)
Fixpoint decodePairs (hex : string) : option Uint8Array :=
  match hex with
  | EmptyString => Some []
  | String _ EmptyString => None
  | String c1 (String c2 rest) =>
      match hexDigitValue c1, hexDigitValue c2, decodePairs rest with
      | Some hi, Some lo, Some bs =>
          match Byte.of_N (16 * hi + lo) with
          | Some b => Some (b :: bs)
          | None => None
          end
      | _, _, _ => None
      end
  end.

(** Modelled from the spec: [Uint8ArrayUtils.fromHex] is missing.
    "hexToBytes(hex: 32-char string) -> 16 bytes: decodes pairs of hex
    digits; fails with FormatError if the string contains non-hex
    characters or is not exactly 32 characters." *)
Definition fromHex (hex : string) : result Uint8Array :=
  if Nat.eqb (String.length hex) 32 then
    match decodePairs hex with
    | Some bs => Return bs
    | None => Throw HexDecodeFailure
    end
  else Throw HexDecodeFailure.

(** Modelled from the spec: the lowercase digit of a value below 16
    (helper of [Uint8ArrayUtils.toHex], which is missing). *)
Definition hexDigit (n : N) : ascii :=
  if (n <? 10)%N then ascii_of_N (48 + n) else ascii_of_N (87 + n).

(** Modelled from the spec: [Uint8ArrayUtils.toHex] is missing.
    "bytesToHex(bytes: 16 bytes) -> 32-char string: encodes each byte as
    two lowercase hex digits, concatenated, no separators." *)
Fixpoint toHex (bytes : Uint8Array) : string :=
  match bytes with
  | [] => EmptyString
  | b :: rest =>
      String (hexDigit (Byte.to_N b / 16))
        (String (hexDigit (Byte.to_N b mod 16)) (toHex rest))
  end.

End Uint8ArrayUtils.

(** ** The class [UUID] *)

(** An instance: the bytes and the two cache fields ([undefined] is [None]). *)
Record UUID : Type := mkUUID {
  bytes : Uint8Array;
  _str : option string;
  _hex : option string
}.

(** Run-time values that are none of string, [Uint8Array], [null] or
    [undefined] and do not inherit from [UUID.prototype]. A typed array
    other than [Uint8Array], a [DataView] and a plain object are all
    [OObject]. *)
Inductive OtherValue : Type :=
| ONumber (z : Z)
| OBoolean (b : bool)
| OObject.

(** What a caller can pass where the source says
    [UuidInput | null | undefined]. [VUUID] is an instance built by the
    constructor, whose [bytes] is a [Uint8Array]. [VBareUUID] is an object
    that passes [instanceof UUID] without having gone through the
    constructor, so that its [bytes] is [undefined]
    ([Object.create(UUID.prototype)]); the parameter's type excludes it, the
    run-time checks do not. *)
Inductive JsValue : Type :=
| VNull
| VUndefined
| VString (s : string)
| VUint8Array (arr : Uint8Array)
| VUUID (u : UUID)
| VOther (o : OtherValue)
| VBareUUID.


(** [input == null] *)
Definition is_nullish (v : JsValue) : bool :=
  match v with
  | VNull | VUndefined => true
  | _ => false
  end.

Definition REGEX_HEX : RegExp :=
  [(hexClass, 8); (hexClass, 4); (versionClass, 1); (hexClass, 3);
   (variantClass, 1); (hexClass, 3); (hexClass, 12)]%nat.

Definition REGEX_RFC4122 : RegExp :=
  [(hexClass, 8); (Lit "-", 1); (hexClass, 4); (Lit "-", 1);
   (versionClass, 1); (hexClass, 3); (Lit "-", 1);
   (variantClass, 1); (hexClass, 3); (Lit "-", 1); (hexClass, 12)]%nat.

Definition BYTE_LENGTH : nat := 16.
Definition STR_LENGTH : nat := 36.
Definition HEX_STR_LENGTH : nat := 32.

Definition isValidHex (hex : JsValue) : bool :=
  match hex with
  | VString s => test REGEX_HEX s
  | _ => false
  end.

Definition isValidString (str : JsValue) : bool :=
  match str with
  | VString s => test REGEX_RFC4122 s
  | _ => false
  end.

(** [hex.slice(from, to)] and [hex.slice(from)] for indices within range. *)
Definition slice (s : string) (from to : nat) : string := substring from (to - from) s.
Definition slice_from (s : string) (from : nat) : string :=
  substring from (String.length s - from) s.

Definition formatHex (hex : string) : result string :=
  if negb (Nat.eqb (String.length hex) HEX_STR_LENGTH) then Throw HexLengthMismatch
  else Return (slice hex 0 8 ++ "-" ++
               slice hex 8 12 ++ "-" ++
               slice hex 12 16 ++ "-" ++
               slice hex 16 20 ++ "-" ++
               slice_from hex 20).

(** [str.replace(/-/g, "")] *)
Fixpoint stripHyphens (str : string) : string :=
  match str with
  | EmptyString => EmptyString
  | String c rest =>
      if Ascii.eqb c "-" then stripHyphens rest else String c (stripHyphens rest)
  end.

Definition parseHex (hex : string) : result Uint8Array :=
  Uint8ArrayUtils.fromHex hex.

Definition parseString (str : string) : result Uint8Array :=
  let hex := stripHyphens str in
  parseHex hex.

(** The parameter is typed [Uint8Array]; the [instanceof] guard is the
    run-time check of that type. *)
Definition parseBytes (input : JsValue) : result Uint8Array :=
  match input with
  | VUint8Array arr => Return (copy_Uint8Array arr)
  | _ => Throw ExpectedUint8Array
  end.

Definition toBytes (u : UUID) : Uint8Array := copy_Uint8Array (bytes u).

(** [toBytes] called on an object whose [bytes] is [undefined]:
    [new Uint8Array(undefined)] is the empty array. *)
Definition toBytes_undefined : Uint8Array := new_Uint8Array 0.

Definition parse (input : JsValue) : result Uint8Array :=
  match input with
  | VString s =>
      let length := String.length s in
      if Nat.eqb length STR_LENGTH then parseString s
      else if Nat.eqb length HEX_STR_LENGTH then parseHex s
      else Throw InvalidStringLength
  | VUint8Array _ => parseBytes input
  | VUUID u => Return (toBytes u)
  | VBareUUID => Return toBytes_undefined
  | VNull | VUndefined => Throw NotExpectedInput
  | VOther _ => Throw NotExpectedInput
  end.

(** [new UUID(input)] *)
Definition new_UUID (input : JsValue) : result UUID :=
  b <- parse input ;;
  Return (mkUUID b None None).

Definition fromHex (hex : string) : result UUID :=
  b <- parseHex hex ;; new_UUID (VUint8Array b).

Definition fromString (str : string) : result UUID :=
  b <- parseString str ;; new_UUID (VUint8Array b).

Definition fromBytes (arr : Uint8Array) : result UUID :=
  b <- parseBytes (VUint8Array arr) ;; new_UUID (VUint8Array b).

Definition from (input : JsValue) : result UUID :=
  b <- parse input ;; fromBytes b.

Definition nil : result UUID := fromBytes (new_Uint8Array BYTE_LENGTH).

Definition max : result UUID := fromBytes (fill (new_Uint8Array BYTE_LENGTH) xff).

(** The [Uint8Array] branch of [version]. *)
Definition version_of_bytes (input : Uint8Array) : result Z :=
  if negb (Nat.eqb (byteLength input) BYTE_LENGTH)
  then Throw (InvalidByteLength (byteLength input))
  else Return (Z.shiftr (toInt32 (index input 6)) 4).

(** [version]: the recursive call is always on a [Uint8Array], so it is the
    branch above (see [version_equation]). *)
Definition version (input : JsValue) : result Z :=
  match input with
  | VUint8Array arr => version_of_bytes arr
  | _ => b <- parse input ;; version_of_bytes b
  end.

Definition isValidBytes (arr : Uint8Array) : result bool :=
  if negb (Nat.eqb (byteLength arr) BYTE_LENGTH) then Return false
  else
    version <- version (VUint8Array arr) ;;
    if (version <? 1)%Z || (version >? 5)%Z then Return false
    else
      let variant := Z.shiftr (Z.land (toInt32 (index arr 8)) 0xc0) 6 in
      if negb (variant =? 2)%Z then Return false
      else Return true.

(** [isValidBytes] called with [undefined]: its first statement reads
    [bytes.byteLength], and the engine throws a TypeError. *)
Definition isValidBytes_undefined : result bool := Throw ReadOfUndefined.

Definition isValid (input : JsValue) : result bool :=
  if is_nullish input then Return false
  else
    match input with
    | VString s =>
        let length := String.length s in
        if Nat.eqb length STR_LENGTH then Return (isValidString input)
        else if Nat.eqb length HEX_STR_LENGTH then Return (isValidHex input)
        else Return false
    | VUUID u => isValidBytes (bytes u)
    | VBareUUID => isValidBytes_undefined
    | VUint8Array arr => isValidBytes arr
    | _ => Return false
    end.

(** The inner loop of [equals]: is there a [j] below 16 with
    [ref[j] !== b[j]]? *)
Fixpoint differs_at (ref b : Uint8Array) (js : list nat) : bool :=
  match js with
  | [] => false
  | j :: js' => if strict_neq (index ref j) (index b j) then true else differs_at ref b js'
  end.

(** The outer loop of [equals], over [inputs[1..]]. *)
Fixpoint equals_loop (ref : Uint8Array) (rest : list JsValue) : result bool :=
  match rest with
  | [] => Return true
  | input :: rest' =>
      if is_nullish input then Return false
      else
        b <- parse input ;;
        if differs_at ref b (seq 0 BYTE_LENGTH) then Return false
        else equals_loop ref rest'
  end.

Definition equals (inputs : list JsValue) : result bool :=
  let inputLength := List.length inputs in
  if (inputLength <? 2)%nat then Throw TooFewUuids
  else
    match inputs with
    | [] => Throw TooFewUuids
    | first :: rest =>
        if is_nullish first then Return false
        else
          ref <- parse first ;;
          equals_loop ref rest
    end.

(** The loop of [compare], over the indices still to visit. *)
Fixpoint compare_loop (a b : Uint8Array) (ix : list nat) : Z :=
  match ix with
  | [] => 0%Z
  | i :: ix' =>
      if strict_neq (index a i) (index b i)
      then (if js_lt (index a i) (index b i) then (-1)%Z else 1%Z)
      else compare_loop a b ix'
  end.

Definition compare (uuid1 uuid2 : JsValue) : result Z :=
  a <- parse uuid1 ;;
  b <- parse uuid2 ;;
  Return (compare_loop a b (seq 0 BYTE_LENGTH)).

(** Instance members. A method that may fill a cache field returns the
    instance as it is after the call. *)

Definition UUID_equals (this : UUID) (inputs : list JsValue) : result bool :=
  equals (VUUID this :: inputs).

Definition UUID_compare (this : UUID) (other : JsValue) : result Z :=
  compare (VUUID this) other.

Definition UUID_version (this : UUID) : result Z :=
  version (VUint8Array (bytes this)).

Definition toHex (this : UUID) : string * UUID :=
  match _hex this with
  | Some h => (h, this)
  | None =>
      let h := Uint8ArrayUtils.toHex (bytes this) in
      (h, mkUUID (bytes this) (_str this) (Some h))
  end.

Definition toString (this : UUID) : result (string * UUID) :=
  match _str this with
  | Some s => Return (s, this)
  | None =>
      let '(hex, this1) := toHex this in
      s <- formatHex hex ;;
      Return (s, mkUUID (bytes this1) (Some s) (_hex this1))
  end.

Definition toJSON (this : UUID) : result (string * UUID) := toString this.

(** ** Vocabulary of the statements *)

(** ASCII lower-casing, as [String.prototype.toLowerCase] acts on the
    characters a UUID string can hold. *)
Definition lower_ascii (c : ascii) : ascii :=
  let n := N_of_ascii c in
  if (65 <=? n)%N && (n <=? 90)%N then ascii_of_N (n + 32) else c.

Fixpoint lowercase (s : string) : string :=
  match s with
  | EmptyString => EmptyString
  | String c rest => String (lower_ascii c) (lowercase rest)
  end.

(** The version nibble and the variant bits of an array of 16 bytes. *)
Definition version_nibble (arr : Uint8Array) : Z := Z.shiftr (toInt32 (index arr 6)) 4.
Definition variant_bits (arr : Uint8Array) : Z := Z.shiftr (toInt32 (index arr 8)) 6.

(** [in_chars cs c]: the character [c] is one of those of [cs]. *)
Definition in_chars (cs : string) (c : ascii) : bool :=
  existsb (Ascii.eqb c) (list_ascii_of_string cs).

(** A hex digit, of either case. *)
Definition hex_digit (c : ascii) : bool := in_chars "0123456789abcdefABCDEF" c.

(** The character at position [i] exists and satisfies [p]. *)
Definition char_at (s : string) (i : nat) (p : ascii -> bool) : bool :=
  match String.get i s with
  | Some c => p c
  | None => false
  end.

(** The canonical form XXXXXXXX-XXXX-VXXX-NXXX-XXXXXXXXXXXX, position by
    position: 36 characters, hyphens at positions 8, 13, 18 and 23, the
    version character (position 14) one of 1..5, the variant character
    (position 19) one of 8, 9, a, b, A, B, a hex digit everywhere else. *)
Definition rfc4122_form (s : string) : bool :=
  Nat.eqb (String.length s) 36 &&
  forallb (fun i =>
             char_at s i
               (if existsb (Nat.eqb i) [8; 13; 18; 23]%nat then Ascii.eqb "-"
                else if Nat.eqb i 14 then in_chars "12345"
                else if Nat.eqb i 19 then in_chars "89abAB"
                else hex_digit))
          (seq 0 36).

(** The same form without the hyphens: 32 characters, the version character
    at position 12 and the variant character at position 16. *)
Definition hex_form (s : string) : bool :=
  Nat.eqb (String.length s) 32 &&
  forallb (fun i =>
             char_at s i
               (if Nat.eqb i 12 then in_chars "12345"
                else if Nat.eqb i 16 then in_chars "89abAB"
                else hex_digit))
          (seq 0 32).

(** Every character is a hex digit. *)
Fixpoint all_hex (s : string) : bool :=
  match s with
  | EmptyString => true
  | String c rest => hex_digit c && all_hex rest
  end.



(** Lexicographic comparison of two sequences of numbers: the sign of the
    first position where they differ, 0 when one runs out first. *)
Fixpoint lex_compare (xs ys : list N) : Z :=
  match xs, ys with
  | x :: xs', y :: ys' =>
      match (x ?= y)%N with
      | Lt => (-1)%Z
      | Gt => 1%Z
      | Eq => lex_compare xs' ys'
      end
  | _, _ => 0%Z
  end.

(** The cache fields of an instance agree with its bytes: a filled [_hex]
    is the hex form of [bytes], a filled [_str] is that form with the
    hyphens put in. *)
Definition coherent (u : UUID) : Prop :=
  (forall h, _hex u = Some h -> h = Uint8ArrayUtils.toHex (bytes u)) /\
  (forall s, _str u = Some s -> formatHex (Uint8ArrayUtils.toHex (bytes u)) = Return s).

(** The string holds a hyphen. *)
Definition has_hyphen (s : string) : Prop := In "-"%char (list_ascii_of_string s).

(** ** Examples *)

Definition sample : string := "9e472052-a654-4693-9a8b-3ce57ada3d6c".

Example sample_toHex :
  (u <- fromString sample ;; Return (fst (toHex u))) = Return "9e472052a65446939a8b3ce57ada3d6c".
Proof. reflexivity. Qed.

Example nil_toString :
  (u <- nil ;; v <- toString u ;; Return (fst v)) = Return "00000000-0000-0000-0000-000000000000".
Proof. reflexivity. Qed.

Example not_a_uuid : isValid (VString "not-a-uuid") = Return false.
Proof. reflexivity. Qed.

Example sample_valid : isValid (VString sample) = Return true.
Proof. reflexivity. Qed.

Example compare_nil_max :
  (a <- nil ;; b <- max ;; compare (VUUID a) (VUUID b)) = Return (-1)%Z /\
  (a <- nil ;; b <- max ;; compare (VUUID b) (VUUID a)) = Return 1%Z.
Proof. split; reflexivity. Qed.

Example all_ones_constructible :
  returns (fromBytes (repeat x01 16)) /\ isValidBytes (repeat x01 16) = Return false.
Proof. split; [eexists; reflexivity | reflexivity]. Qed.

(** ** Character classes *)

Ltac each_ascii c := destruct c as [[] [] [] [] [] [] [] []].

Lemma hex_digit_class (c : ascii) : hex_digit c = atom_matches hexClass c.
Proof. each_ascii c; reflexivity. Qed.

Lemma version_char_class (c : ascii) : in_chars "12345" c = atom_matches versionClass c.
Proof. each_ascii c; reflexivity. Qed.

Lemma variant_char_class (c : ascii) : in_chars "89abAB" c = atom_matches variantClass c.
Proof. each_ascii c; reflexivity. Qed.

Lemma hyphen_class (c : ascii) : Ascii.eqb "-" c = atom_matches (Lit "-") c.
Proof. apply Ascii.eqb_sym. Qed.

(** ** Basic facts *)

Lemma copy_Uint8Array_eq (src : Uint8Array) : copy_Uint8Array src = src.
Proof. unfold copy_Uint8Array. apply map_id. Qed.

Lemma parse_Uint8Array (arr : Uint8Array) : parse (VUint8Array arr) = Return arr.
Proof. simpl. unfold parseBytes. now rewrite copy_Uint8Array_eq. Qed.

Lemma parse_UUID (u : UUID) : parse (VUUID u) = Return (bytes u).
Proof. simpl. unfold toBytes. now rewrite copy_Uint8Array_eq. Qed.

Lemma fromBytes_eq (arr : Uint8Array) : fromBytes arr = Return (mkUUID arr None None).
Proof.
  unfold fromBytes, parseBytes, new_UUID. simpl. unfold parseBytes.
  now rewrite !copy_Uint8Array_eq.
Qed.

Lemma new_UUID_Uint8Array (arr : Uint8Array) :
  new_UUID (VUint8Array arr) = Return (mkUUID arr None None).
Proof. unfold new_UUID. now rewrite parse_Uint8Array. Qed.

Lemma from_Uint8Array (arr : Uint8Array) :
  from (VUint8Array arr) = Return (mkUUID arr None None).
Proof. unfold from. rewrite parse_Uint8Array. simpl. apply fromBytes_eq. Qed.

(** An array of sixteen bytes, spelled out. *)
Ltac sixteen arr H :=
  unfold byteLength, BYTE_LENGTH in H;
  do 16 (destruct arr as [|? arr]; [discriminate H|]);
  destruct arr; [clear H|discriminate H].

(** The mask [0xc0] keeps the two bits that the shift by 6 leaves. *)
Lemma variant_mask (x : byte) :
  Z.shiftr (Z.land (Z.of_N (Byte.to_N x)) 0xc0) 6 = Z.shiftr (Z.of_N (Byte.to_N x)) 6.
Proof. destruct x; reflexivity. Qed.

Lemma high_nibble (x : byte) :
  Z.shiftr (Z.of_N (Byte.to_N x)) 4 = Z.of_N (Byte.to_N x / 16).
Proof. destruct x; reflexivity. Qed.

Lemma high_nibble_range (x : byte) : (Byte.to_N x / 16 <= 15)%N.
Proof. destruct x; vm_compute; discriminate. Qed.

Lemma isValidBytes_16 (arr : Uint8Array) :
  byteLength arr = 16 ->
  isValidBytes arr =
  Return (((1 <=? version_nibble arr)%Z && (version_nibble arr <=? 5)%Z)
          && (variant_bits arr =? 2)%Z).
Proof.
  intros H. sixteen arr H.
  unfold isValidBytes, version, version_of_bytes, version_nibble, variant_bits,
    index, byteLength, BYTE_LENGTH, bind.
  cbn [List.length Nat.eqb negb nth_error toInt32].
  rewrite variant_mask.
  set (v := Z.shiftr (Z.of_N (Byte.to_N b5)) 4).
  set (w := Z.shiftr (Z.of_N (Byte.to_N b7)) 6).
  rewrite Z.gtb_ltb.
  destruct (Z.ltb_spec v 1), (Z.leb_spec 1 v); try lia; simpl; try reflexivity.
  destruct (Z.ltb_spec 5 v), (Z.leb_spec v 5); try lia; simpl; try reflexivity.
  now destruct (w =? 2)%Z.
Qed.


(** The recursion of [version] as the source writes it. *)
Lemma version_equation (input : JsValue) :
  version input =
  match input with
  | VUint8Array arr =>
      if negb (Nat.eqb (byteLength arr) BYTE_LENGTH)
      then Throw (InvalidByteLength (byteLength arr))
      else Return (Z.shiftr (toInt32 (index arr 6)) 4)
  | _ => b <- parse input ;; version (VUint8Array b)
  end.
Proof. destruct input; reflexivity. Qed.

(** ** The two patterns *)

Lemma match_counted_length (a : Atom) (n : nat) :
  forall s rest, match_counted a n s = Some rest ->
                 String.length s = (n + String.length rest)%nat.
Proof.
  induction n as [|n IH]; intros s rest H; simpl in H.
  - now injection H as ->.
  - destruct s as [|c s]; [discriminate|].
    destruct (atom_matches a c); [|discriminate].
    simpl. now rewrite (IH s rest H).
Qed.

Lemma match_anchored_length (r : RegExp) :
  forall s, match_anchored r s = true ->
            String.length s = fold_right (fun an acc => (snd an + acc)%nat) 0%nat r.
Proof.
  induction r as [|[a n] r IH]; intros s H; simpl in H.
  - now destruct s.
  - destruct (match_counted a n s) as [rest|] eqn:E; [|discriminate].
    simpl. rewrite <- (IH rest H). now apply match_counted_length with (a := a).
Qed.

Lemma match_counted_all_hex (a : Atom) (n : nat) :
  (forall c, atom_matches a c = true -> atom_matches hexClass c = true) ->
  forall s rest, match_counted a n s = Some rest ->
                 all_hex rest = true -> all_hex s = true.
Proof.
  intros Hsub. induction n as [|n IH]; intros s rest H Hrest; simpl in H.
  - now injection H as ->.
  - destruct s as [|c s]; [discriminate|].
    destruct (atom_matches a c) eqn:E; [|discriminate].
    cbn [all_hex]. now rewrite hex_digit_class, (Hsub c E), (IH s rest H Hrest).
Qed.

Lemma match_anchored_all_hex (r : RegExp) :
  Forall (fun an => forall c, atom_matches (fst an) c = true ->
                              atom_matches hexClass c = true) r ->
  forall s, match_anchored r s = true -> all_hex s = true.
Proof.
  induction 1 as [|[a n] r Ha Hr IH]; intros s H; simpl in H.
  - now destruct s.
  - destruct (match_counted a n s) as [rest|] eqn:E; [|discriminate].
    apply (match_counted_all_hex a n Ha s rest E). now apply IH.
Qed.

Lemma versionClass_hex (c : ascii) :
  atom_matches versionClass c = true -> atom_matches hexClass c = true.
Proof. each_ascii c; vm_compute; trivial. Qed.

Lemma variantClass_hex (c : ascii) :
  atom_matches variantClass c = true -> atom_matches hexClass c = true.
Proof. each_ascii c; vm_compute; trivial. Qed.

Lemma hex_not_hyphen (c : ascii) :
  atom_matches hexClass c = true -> Ascii.eqb c "-" = false.
Proof. each_ascii c; vm_compute; trivial; discriminate. Qed.

Lemma REGEX_HEX_shape (h : string) :
  test REGEX_HEX h = true -> String.length h = 32 /\ all_hex h = true.
Proof.
  intros H. split.
  - apply (match_anchored_length REGEX_HEX h H).
  - revert H. apply match_anchored_all_hex.
    unfold REGEX_HEX.
    repeat (apply Forall_cons;
            [cbn [fst];
             first [exact versionClass_hex | exact variantClass_hex | intros c Hc; exact Hc]|]).
    apply Forall_nil.
Qed.

Lemma stripHyphens_hex (c : ascii) (rest : string) :
  atom_matches hexClass c = true ->
  stripHyphens (String c rest) = String c (stripHyphens rest).
Proof. intros H. cbn [stripHyphens]. now rewrite (hex_not_hyphen c H). Qed.

Lemma stripHyphens_hyphen (rest : string) :
  stripHyphens (String "-" rest) = stripHyphens rest.
Proof. reflexivity. Qed.

Lemma stripHyphens_all_hex (s : string) : all_hex s = true -> stripHyphens s = s.
Proof.
  induction s as [|c s IH]; [reflexivity|]. cbn [all_hex].
  rewrite hex_digit_class, andb_true_iff. intros [Hc Hs]. rewrite (stripHyphens_hex c s Hc).
  now rewrite (IH Hs).
Qed.

(** Reads off, character by character, what a successful match says. *)
Ltac read_match H :=
  repeat match type of H with
         | context [atom_matches ?a ?c] =>
             let E := fresh "M" in
             destruct (atom_matches a c) eqn:E;
             [cbn [match_anchored match_counted] in H
             |cbn [match_anchored match_counted] in H; discriminate H]
         end.

(** A string that matches the hyphenated pattern loses exactly its four
    hyphens, matches the plain pattern afterwards, and is recovered, lower
    case, by [formatHex]. *)
Lemma REGEX_RFC4122_strip (s : string) :
  test REGEX_RFC4122 s = true ->
  test REGEX_HEX (stripHyphens s) = true /\
  formatHex (lowercase (stripHyphens s)) = Return (lowercase s).
Proof.
  intros H. pose proof (match_anchored_length REGEX_RFC4122 s H) as Hlen.
  cbn in Hlen.
  do 36 (destruct s as [|? s]; [discriminate Hlen|]).
  destruct s; [clear Hlen|discriminate Hlen].
  unfold test, REGEX_RFC4122 in H. cbn [match_anchored match_counted] in H.
  read_match H. clear H.
  repeat match goal with
         | M : atom_matches (Lit _) _ = true |- _ =>
             cbn [atom_matches] in M; apply Ascii.eqb_eq in M; subst
         end.
  repeat match goal with
         | M : atom_matches versionClass ?c = true |- _ =>
             pose proof (versionClass_hex c M); revert M
         | M : atom_matches variantClass ?c = true |- _ =>
             pose proof (variantClass_hex c M); revert M
         end.
  intros.
  repeat first [rewrite stripHyphens_hyphen | rewrite stripHyphens_hex by assumption].
  cbn [stripHyphens]. split.
  - unfold test, REGEX_HEX. cbn [match_anchored match_counted].
    repeat match goal with
           | M : atom_matches ?a ?c = true |- context [atom_matches ?a ?c] =>
               rewrite M; cbn [match_anchored match_counted]
           end.
    reflexivity.
  - cbn [lowercase]. reflexivity.
Qed.

(** The two regular expressions say what the position-by-position forms
    say. *)

Tactic Notation "explode" ident(s) ident(Hlen) integer(n) :=
  do n (destruct s as [|? s]; [discriminate Hlen|]);
  destruct s; [clear Hlen|discriminate Hlen].

Ltac decide_matches :=
  repeat match goal with
         | |- context [atom_matches ?a ?c] =>
             destruct (atom_matches a c);
             cbn [match_anchored match_counted andb]; try reflexivity
         end.

Lemma REGEX_RFC4122_form (s : string) : test REGEX_RFC4122 s = rfc4122_form s.
Proof.
  destruct (Nat.eq_dec (String.length s) 36) as [Hlen|Hlen].
  - explode s Hlen 36.
    unfold test, REGEX_RFC4122, rfc4122_form.
    cbv [String.length Nat.eqb seq forallb char_at String.get existsb orb].
    rewrite !hex_digit_class, !version_char_class, !variant_char_class, !hyphen_class.
    cbn [match_anchored match_counted andb]. decide_matches.
  - unfold rfc4122_form. rewrite (proj2 (Nat.eqb_neq _ _) Hlen). cbn [andb].
    destruct (test REGEX_RFC4122 s) eqn:E; [|reflexivity].
    elim Hlen. apply (match_anchored_length REGEX_RFC4122 s E).
Qed.

Lemma REGEX_HEX_form (s : string) : test REGEX_HEX s = hex_form s.
Proof.
  destruct (Nat.eq_dec (String.length s) 32) as [Hlen|Hlen].
  - explode s Hlen 32.
    unfold test, REGEX_HEX, hex_form.
    cbv [String.length Nat.eqb seq forallb char_at String.get existsb orb].
    rewrite !hex_digit_class, !version_char_class, !variant_char_class.
    cbn [match_anchored match_counted andb]. decide_matches.
  - unfold hex_form. rewrite (proj2 (Nat.eqb_neq _ _) Hlen). cbn [andb].
    destruct (test REGEX_HEX s) eqn:E; [|reflexivity].
    elim Hlen. apply (match_anchored_length REGEX_HEX s E).
Qed.

(** ** Byte arrays *)

(** C2 (code at a three-byte array): [fromBytes], [from] and the constructor
    all accept an array of three bytes and build an instance whose [bytes]
    has length 3; no exception is thrown. *)
Theorem fromBytes_accepts_three_bytes :
  let arr := [x01; x02; x03] in
  fromBytes arr = Return (mkUUID arr None None) /\
  from (VUint8Array arr) = Return (mkUUID arr None None) /\
  new_UUID (VUint8Array arr) = Return (mkUUID arr None None) /\
  byteLength (bytes (mkUUID arr None None)) = 3.
Proof. repeat split. Qed.

(** C3: for an array [b] of 16 bytes whose version nibble is between 1 and 5
    and whose variant bits are binary 10, [fromBytes(b).toBytes()] is [b] and
    [isValidBytes(b)] is true. *)
Theorem fromBytes_toBytes_valid (b : Uint8Array) :
  byteLength b = 16 ->
  (1 <= version_nibble b <= 5)%Z ->
  variant_bits b = 2%Z ->
  (exists u, fromBytes b = Return u /\ toBytes u = b) /\
  isValidBytes b = Return true.
Proof.
  intros Hlen Hver Hvar. split.
  - exists (mkUUID b None None). split; [apply fromBytes_eq|].
    unfold toBytes. simpl. apply copy_Uint8Array_eq.
  - rewrite (isValidBytes_16 b Hlen), Hvar.
    destruct (Z.leb_spec 1 (version_nibble b)), (Z.leb_spec (version_nibble b) 5);
      try lia; reflexivity.
Qed.

Lemma fromBytes_toBytes_valid_witness :
  let b := [x9e; x47; x20; x52; xa6; x54; x46; x93;
            x9a; x8b; x3c; xe5; x7a; xda; x3d; x6c] in
  (exists u, fromBytes b = Return u /\ toBytes u = b) /\
  isValidBytes b = Return true.
Proof.
  apply fromBytes_toBytes_valid.
  - reflexivity.
  - vm_compute. split; discriminate.
  - reflexivity.
Defined.

(** ** Version extraction *)

Lemma version_16 (arr : Uint8Array) :
  byteLength arr = 16 ->
  exists x, index arr 6 = Some x /\
            version (VUint8Array arr) = Return (Z.of_N (Byte.to_N x / 16)).
Proof.
  intros H. sixteen arr H. eexists. split; [reflexivity|].
  unfold version, version_of_bytes, index, byteLength, BYTE_LENGTH.
  cbn [List.length Nat.eqb negb nth_error toInt32]. now rewrite high_nibble.
Qed.

Lemma version_not_16 (arr : Uint8Array) :
  byteLength arr <> 16 ->
  version (VUint8Array arr) = Throw (InvalidByteLength (byteLength arr)).
Proof.
  intros H. unfold version, version_of_bytes, BYTE_LENGTH.
  destruct (Nat.eqb_spec (byteLength arr) 16); [contradiction|reflexivity].
Qed.

(** C9: on an array of 16 bytes [version] returns the high nibble of the byte
    at index 6, a number from 0 to 15, with no further restriction (0 and 15
    are both returned); on an array of any other length it throws a
    FormatError; on any other input it parses the input and calls itself on
    the bytes; and the version of the sample string's instance is 4. *)
Theorem version_spec :
  (forall arr, byteLength arr = 16 ->
     exists x, index arr 6 = Some x /\
               version (VUint8Array arr) = Return (Z.of_N (Byte.to_N x / 16)) /\
               (0 <= Z.of_N (Byte.to_N x / 16) <= 15)%Z) /\
  (exists arr0 arr15,
     version (VUint8Array arr0) = Return 0%Z /\
     version (VUint8Array arr15) = Return 15%Z) /\
  (forall arr, byteLength arr <> 16 ->
     throws_kind FormatError (version (VUint8Array arr))) /\
  (forall input, (forall arr, input <> VUint8Array arr) ->
     version input = (b <- parse input ;; version (VUint8Array b))) /\
  (u <- fromString "9e472052-a654-4693-9a8b-3ce57ada3d6c" ;; version (VUUID u)) = Return 4%Z.
Proof.
  split; [|split; [|split; [|split]]].
  - intros arr H. destruct (version_16 arr H) as (x & Hx & Hv).
    exists x. split; [exact Hx|]. split; [exact Hv|].
    pose proof (high_nibble_range x) as Hr.
    generalize dependent (Byte.to_N x / 16)%N. intros n _ Hr. lia.
  - exists (new_Uint8Array 16), (fill (new_Uint8Array 16) xff). split; reflexivity.
  - intros arr H. eexists. split; [apply version_not_16, H|reflexivity].
  - intros input H. rewrite version_equation. destruct input; try reflexivity.
    now elim (H arr).
  - reflexivity.
Qed.

Lemma version_spec_witness :
  (exists x, index (new_Uint8Array 16) 6 = Some x /\
             version (VUint8Array (new_Uint8Array 16)) = Return (Z.of_N (Byte.to_N x / 16)) /\
             (0 <= Z.of_N (Byte.to_N x / 16) <= 15)%Z) /\
  throws_kind FormatError (version (VUint8Array [x01; x02; x03])) /\
  version (VString "9e472052a65446939a8b3ce57ada3d6c") =
    (b <- parse (VString "9e472052a65446939a8b3ce57ada3d6c") ;; version (VUint8Array b)).
Proof.
  destruct version_spec as (H16 & _ & Hnot & Hrec & _).
  split; [|split].
  - apply H16. reflexivity.
  - apply Hnot. simpl. discriminate.
  - apply Hrec. intros arr. discriminate.
Defined.

(** ** Validation *)



(** The other operations take the same object as a UUID with no bytes:
    [toBytes] gives the empty array, so [parse] returns and [version] throws
    the byte-length error. *)
Example operations_on_bare_object :
  parse VBareUUID = Return [] /\
  version VBareUUID = Throw (InvalidByteLength 0) /\
  equals [VBareUUID; VUint8Array []] = Return true.
Proof. repeat split. Qed.



(** C10: [nil()] and [max()] are constructible, yet [isValid] is false on
    both; the version nibble of the nil UUID is 0 and the variant bits of the
    max UUID are binary 11. *)
Theorem isValid_nil_max :
  (exists u, nil = Return u /\ isValid (VUUID u) = Return false /\
             version_nibble (bytes u) = 0%Z) /\
  (exists u, max = Return u /\ isValid (VUUID u) = Return false /\
             variant_bits (bytes u) = 3%Z).
Proof. split; eexists; repeat split. Qed.

(** The first check that rejects the max UUID is the one on the version
    nibble, which is 15. *)
Lemma max_version_nibble :
  exists u, max = Return u /\ version_nibble (bytes u) = 15%Z.
Proof. eexists. split; reflexivity. Qed.

(** ** Equality *)

Lemma equals_loop_nullish (ref : Uint8Array) :
  forall (k : nat) (rest : list JsValue) (v : JsValue),
    nth_error rest k = Some v ->
    is_nullish v = true ->
    (forall j w, (j < k)%nat -> nth_error rest j = Some w ->
                 is_nullish w = false -> returns (parse w)) ->
    equals_loop ref rest = Return false.
Proof.
  induction k as [|k IH]; intros rest v Hk Hv Hbefore.
  - destruct rest as [|w rest]; [discriminate|]. simpl in Hk. injection Hk as ->.
    cbn [equals_loop]. now rewrite Hv.
  - destruct rest as [|w rest]; [discriminate|]. simpl in Hk. cbn [equals_loop].
    destruct (is_nullish w) eqn:Hw; [reflexivity|].
    destruct (Hbefore 0%nat w) as [b Hb]; [lia|reflexivity|exact Hw|].
    rewrite Hb. cbn [bind].
    destruct (differs_at ref b (seq 0 BYTE_LENGTH)); [reflexivity|].
    apply (IH rest v Hk Hv). intros j u Hj Hu. apply (Hbefore (S j) u); [lia|exact Hu].
Qed.

(** C8: with fewer than two arguments [equals] throws an
    InvalidArgumentError; with two or more it returns false, without
    throwing, as soon as one argument is [null] or [undefined], provided
    every non-null argument before that one parses. *)
Theorem equals_arity_and_null :
  (forall inputs, (List.length inputs < 2)%nat ->
     throws_kind InvalidArgumentError (equals inputs)) /\
  (forall inputs k v,
     (2 <= List.length inputs)%nat ->
     nth_error inputs k = Some v ->
     is_nullish v = true ->
     (forall j w, (j < k)%nat -> nth_error inputs j = Some w ->
                  is_nullish w = false -> returns (parse w)) ->
     equals inputs = Return false).
Proof.
  split.
  - intros inputs H. exists TooFewUuids. split; [|reflexivity].
    unfold equals. destruct (Nat.ltb_spec (List.length inputs) 2); [reflexivity|lia].
  - intros inputs k v Hlen Hk Hv Hbefore. unfold equals.
    destruct (Nat.ltb_spec (List.length inputs) 2); [lia|].
    destruct inputs as [|first rest]; [simpl in Hlen; lia|].
    destruct (is_nullish first) eqn:Hfirst; [reflexivity|].
    destruct k as [|k]; [simpl in Hk; congruence|].
    destruct (Hbefore 0%nat first) as [ref Href]; [lia|reflexivity|exact Hfirst|].
    rewrite Href. cbn [bind].
    apply (equals_loop_nullish ref k rest v Hk Hv).
    intros j w Hj Hw. apply (Hbefore (S j) w); [lia|exact Hw].
Qed.

Lemma equals_arity_and_null_witness :
  throws_kind InvalidArgumentError (equals [VString sample]) /\
  equals [VString sample; VUint8Array (new_Uint8Array 16); VUndefined; VOther OObject] =
    Return false.
Proof.
  destruct equals_arity_and_null as [Hfew Hnull]. split.
  - apply Hfew. simpl. lia.
  - apply (Hnull _ 2%nat VUndefined).
    + simpl. lia.
    + reflexivity.
    + reflexivity.
    + intros j w Hj Hw _.
      destruct j as [|[|j]]; [| |lia]; simpl in Hw; injection Hw as <-;
        eexists; reflexivity.
Defined.

Lemma differs_at_compare_loop (a b : Uint8Array) (ix : list nat) :
  differs_at a b ix = false <-> compare_loop a b ix = 0%Z.
Proof.
  induction ix as [|i ix IH]; simpl; [tauto|].
  destruct (strict_neq (index a i) (index b i)); [|exact IH].
  destruct (js_lt (index a i) (index b i)); split; discriminate.
Qed.

(** C6: for inputs [a] and [b] that parse, [equals(a, b)] is true exactly
    when [compare(a, b)] is 0, and neither call throws; for an input [a]
    that parses, [equals(a, null)] and [equals(a, undefined)] return false. *)
Theorem equals_iff_compare_zero :
  (forall a b, returns (parse a) -> returns (parse b) ->
     returns (equals [a; b]) /\ returns (compare a b) /\
     (equals [a; b] = Return true <-> compare a b = Return 0%Z)) /\
  (forall a, returns (parse a) ->
     equals [a; VNull] = Return false /\ equals [a; VUndefined] = Return false).
Proof.
  split.
  - intros a b [x Hx] [y Hy].
    assert (Ha : is_nullish a = false) by (destruct a; simpl in *; congruence).
    assert (Hb : is_nullish b = false) by (destruct b; simpl in *; congruence).
    unfold equals, compare. cbn [List.length Nat.ltb Nat.leb].
    rewrite Ha, Hx. cbn [bind equals_loop]. rewrite Hb, Hy. cbn [bind].
    pose proof (differs_at_compare_loop x y (seq 0 BYTE_LENGTH)) as Hiff.
    destruct (differs_at x y (seq 0 BYTE_LENGTH)).
    + repeat split; try (eexists; reflexivity); try discriminate.
      intros H. injection H as H. apply Hiff in H. discriminate.
    + repeat split; try (eexists; reflexivity).
      intros _. f_equal. now apply Hiff.
  - intros a [x Hx].
    assert (Ha : is_nullish a = false) by (destruct a; simpl in *; congruence).
    unfold equals. cbn [List.length Nat.ltb Nat.leb]. rewrite Ha, Hx. split; reflexivity.
Qed.

Lemma equals_iff_compare_zero_witness :
  (equals [VString sample; VString "9E472052A65446939A8B3CE57ADA3D6C"] = Return true <->
   compare (VString sample) (VString "9E472052A65446939A8B3CE57ADA3D6C") = Return 0%Z) /\
  equals [VString sample; VNull] = Return false.
Proof.
  destruct equals_iff_compare_zero as [Hiff Hnull]. split.
  - destruct (Hiff (VString sample) (VString "9E472052A65446939A8B3CE57ADA3D6C"))
      as (_ & _ & H); [eexists; reflexivity|eexists; reflexivity|exact H].
  - destruct (Hnull (VString sample)) as [H _]; [eexists; reflexivity|exact H].
Defined.

(** ** Ordering *)

Lemma to_N_inj (x y : byte) : Byte.to_N x = Byte.to_N y -> x = y.
Proof.
  intros H. pose proof (Byte.of_to_N x) as Hx. rewrite H, Byte.of_to_N in Hx.
  now injection Hx.
Qed.

Lemma byte_eqb_to_N (x y : byte) : Byte.eqb x y = (Byte.to_N x =? Byte.to_N y)%N.
Proof.
  destruct (Byte.eqb x y) eqn:E.
  - apply Byte.byte_dec_bl in E. subst. symmetry. apply N.eqb_refl.
  - symmetry. apply N.eqb_neq. intros H. apply to_N_inj in H. subst.
    now rewrite (@Byte.byte_dec_lb y y eq_refl) in E.
Qed.

Lemma strict_neq_false (x y : option byte) : strict_neq x y = false <-> x = y.
Proof.
  destruct x as [x|], y as [y|]; simpl; split; try discriminate; try reflexivity.
  - rewrite negb_false_iff. intros H. apply Byte.byte_dec_bl in H. now subst.
  - intros H. injection H as ->. now rewrite (@Byte.byte_dec_lb y y eq_refl).
Qed.

Lemma index_in_range (a : Uint8Array) (i : nat) :
  (i < byteLength a)%nat -> exists x, index a i = Some x.
Proof.
  intros H. unfold index. destruct (nth_error a i) eqn:E; [eauto|].
  apply nth_error_None in E. unfold byteLength in H. lia.
Qed.

Lemma compare_loop_refl (a : Uint8Array) (ix : list nat) : compare_loop a a ix = 0%Z.
Proof.
  induction ix as [|i ix IH]; simpl; [reflexivity|].
  now rewrite (proj2 (strict_neq_false (index a i) (index a i)) eq_refl).
Qed.

Lemma compare_loop_values (a b : Uint8Array) (ix : list nat) :
  compare_loop a b ix = (-1)%Z \/ compare_loop a b ix = 0%Z \/ compare_loop a b ix = 1%Z.
Proof.
  induction ix as [|i ix IH]; simpl; [tauto|].
  destruct (strict_neq (index a i) (index b i)); [|exact IH].
  destruct (js_lt (index a i) (index b i)); tauto.
Qed.

Section InRange.

Variables (ix : list nat) (n : nat).
Hypothesis ix_below : forall i, In i ix -> (i < n)%nat.

Lemma compare_loop_antisym (a b : Uint8Array) :
  byteLength a = n -> byteLength b = n ->
  compare_loop a b ix = (- compare_loop b a ix)%Z.
Proof.
  intros Ha Hb. induction ix as [|i ix' IH]; [reflexivity|].
  assert (Hi : (i < n)%nat) by (apply ix_below; now left).
  destruct (index_in_range a i) as [x Hx]; [lia|].
  destruct (index_in_range b i) as [y Hy]; [lia|].
  cbn [compare_loop]. rewrite Hx, Hy. simpl strict_neq. simpl js_lt.
  rewrite !byte_eqb_to_N, (N.eqb_sym (Byte.to_N y)).
  destruct (N.eqb_spec (Byte.to_N x) (Byte.to_N y)) as [E|E]; simpl.
  - apply IH. intros j Hj. apply ix_below. now right.
  - destruct (N.ltb_spec (Byte.to_N x) (Byte.to_N y)),
             (N.ltb_spec (Byte.to_N y) (Byte.to_N x)); (reflexivity || lia).
Qed.

Lemma compare_loop_trans (a b c : Uint8Array) :
  byteLength a = n -> byteLength b = n -> byteLength c = n ->
  (compare_loop a b ix <= 0)%Z -> (compare_loop b c ix <= 0)%Z ->
  (compare_loop a c ix <= 0)%Z /\
  (compare_loop a c ix = 0%Z -> compare_loop a b ix = 0%Z /\ compare_loop b c ix = 0%Z).
Proof.
  intros Ha Hb Hc. induction ix as [|i ix' IH]; [simpl; lia|].
  assert (Hi : (i < n)%nat) by (apply ix_below; now left).
  destruct (index_in_range a i) as [x Hx]; [lia|].
  destruct (index_in_range b i) as [y Hy]; [lia|].
  destruct (index_in_range c i) as [z Hz]; [lia|].
  cbn [compare_loop]. rewrite Hx, Hy, Hz. simpl strict_neq. simpl js_lt.
  rewrite !byte_eqb_to_N.
  destruct (N.eqb_spec (Byte.to_N x) (Byte.to_N y)) as [E1|E1];
    destruct (N.eqb_spec (Byte.to_N y) (Byte.to_N z)) as [E2|E2];
    destruct (N.eqb_spec (Byte.to_N x) (Byte.to_N z)) as [E3|E3];
    try lia; simpl negb; cbv iota.
  - apply IH. intros j Hj. apply ix_below. now right.
  - rewrite <- E1.
    destruct (N.ltb_spec (Byte.to_N x) (Byte.to_N z)); intros; lia.
  - rewrite E2.
    destruct (N.ltb_spec (Byte.to_N x) (Byte.to_N z)); intros; lia.
  - destruct (N.ltb_spec (Byte.to_N x) (Byte.to_N y)),
             (N.ltb_spec (Byte.to_N y) (Byte.to_N z)); intros; lia.
  - destruct (N.ltb_spec (Byte.to_N x) (Byte.to_N y)),
             (N.ltb_spec (Byte.to_N y) (Byte.to_N z)),
             (N.ltb_spec (Byte.to_N x) (Byte.to_N z)); intros; lia.
Qed.

Lemma compare_loop_zero (a b : Uint8Array) :
  compare_loop a b ix = 0%Z -> forall i, In i ix -> index a i = index b i.
Proof.
  clear ix_below. induction ix as [|j ix' IH]; intros H i Hi; [destruct Hi|].
  cbn [compare_loop] in H.
  destruct (strict_neq (index a j) (index b j)) eqn:E.
  - destruct (js_lt (index a j) (index b j)); discriminate.
  - destruct Hi as [<-|Hi]; [now apply strict_neq_false|now apply IH].
Qed.

End InRange.

Lemma compare_zero_same_bytes (a b : Uint8Array) :
  byteLength a = 16 -> byteLength b = 16 ->
  compare_loop a b (seq 0 BYTE_LENGTH) = 0%Z -> a = b.
Proof.
  intros Ha Hb H. apply nth_error_ext. intros i.
  destruct (Nat.lt_ge_cases i 16) as [Hi|Hi].
  - apply (compare_loop_zero (seq 0 BYTE_LENGTH) a b H). apply in_seq.
    unfold BYTE_LENGTH. lia.
  - unfold byteLength in *.
    rewrite (proj2 (nth_error_None a i)), (proj2 (nth_error_None b i)); [reflexivity|lia|lia].
Qed.

(** On inputs that parse to 16 bytes [compare] is a total order: it returns
    -1, 0 or 1; it is 0 on equal bytes and only there; swapping the arguments
    negates it; and it is transitive. *)
Lemma compare_order_on_16_bytes (a b c : JsValue) (x y z : Uint8Array) :
  parse a = Return x -> parse b = Return y -> parse c = Return z ->
  byteLength x = 16 -> byteLength y = 16 -> byteLength z = 16 ->
  exists ab ba bc ac,
    compare a b = Return ab /\ compare b a = Return ba /\
    compare b c = Return bc /\ compare a c = Return ac /\
    compare a a = Return 0%Z /\
    (ab = (-1)%Z \/ ab = 0%Z \/ ab = 1%Z) /\
    (ab = 0%Z <-> x = y) /\
    ab = (- ba)%Z /\
    (ab = (-1)%Z -> bc = (-1)%Z -> ac = (-1)%Z).
Proof.
  intros Pa Pb Pc Hx Hy Hz. unfold compare. rewrite Pa, Pb, Pc. cbn [bind].
  assert (Hseq : forall i, In i (seq 0 BYTE_LENGTH) -> (i < 16)%nat).
  { intros i Hi. apply in_seq in Hi. unfold BYTE_LENGTH in Hi. lia. }
  do 4 eexists. repeat (split; [reflexivity|]).
  split; [now rewrite compare_loop_refl|].
  split; [apply compare_loop_values|].
  split; [split|split].
  - now apply compare_zero_same_bytes.
  - intros <-. apply compare_loop_refl.
  - now apply (compare_loop_antisym _ 16%nat Hseq).
  - intros Hab Hbc.
    destruct (compare_loop_trans _ 16%nat Hseq x y z Hx Hy Hz) as [Hle Hzero]; [lia|lia|].
    destruct (compare_loop_values x z (seq 0 BYTE_LENGTH)) as [H|[H|H]]; [exact H| |lia].
    apply Hzero in H. lia.
Qed.

(** C5 (code at arrays that are not 16 bytes long): the empty array and the
    array of sixteen zero bytes both parse; [compare] returns 1 on them in
    either order, so swapping the arguments does not negate the result; and
    [compare] returns 0 on two arrays of 17 bytes that differ in their last
    byte. *)
Theorem compare_on_short_arrays :
  let a := VUint8Array [] in
  let b := VUint8Array (new_Uint8Array 16) in
  let c := new_Uint8Array 17 in
  let d := (new_Uint8Array 16 ++ [x01])%list in
  parse a = Return [] /\ parse b = Return (new_Uint8Array 16) /\
  compare a b = Return 1%Z /\ compare b a = Return 1%Z /\
  compare (VUint8Array c) (VUint8Array d) = Return 0%Z /\ c <> d.
Proof. repeat split. discriminate. Qed.

(** ** The byte codec *)

Lemma hexClass_value (c : ascii) :
  atom_matches hexClass c =
  match Uint8ArrayUtils.hexDigitValue c with Some _ => true | None => false end.
Proof. each_ascii c; reflexivity. Qed.

Lemma hexDigitValue_lt (c : ascii) (d : N) :
  Uint8ArrayUtils.hexDigitValue c = Some d -> (d < 16)%N.
Proof.
  each_ascii c; intros H; vm_compute in H;
    (discriminate H || (injection H as <-; reflexivity)).
Qed.

Lemma hexDigit_lower (c : ascii) (d : N) :
  Uint8ArrayUtils.hexDigitValue c = Some d -> Uint8ArrayUtils.hexDigit d = lower_ascii c.
Proof.
  each_ascii c; intros H; vm_compute in H;
    (discriminate H || (injection H as <-; reflexivity)).
Qed.

Lemma byte_of_nibbles (hi lo : N) :
  (hi < 16)%N -> (lo < 16)%N ->
  exists b, Byte.of_N (16 * hi + lo) = Some b /\
            (Byte.to_N b / 16 = hi)%N /\ (Byte.to_N b mod 16 = lo)%N.
Proof.
  intros Hhi Hlo.
  destruct (Byte.of_N (16 * hi + lo)) as [b|] eqn:E.
  - exists b. split; [reflexivity|]. apply Byte.to_of_N in E. rewrite E.
    split.
    + symmetry. apply (N.div_unique _ 16 hi lo); lia.
    + symmetry. apply (N.mod_unique _ 16 hi lo); lia.
  - apply Byte.of_N_None_iff in E. lia.
Qed.

(** Induction on strings two characters at a time. *)
Lemma string_pair_ind (P : string -> Prop) :
  P EmptyString ->
  (forall c, P (String c EmptyString)) ->
  (forall c1 c2 s, P s -> P (String c1 (String c2 s))) ->
  forall s, P s.
Proof.
  intros H0 H1 H2 s.
  assert (H : P s /\ forall c, P (String c s)).
  { induction s as [|c s [IH1 IH2]]; [now split|]. split; [apply IH2|].
    intros c0. now apply H2. }
  apply H.
Qed.

Lemma decodePairs_Some (hex : string) (bs : Uint8Array) :
  Uint8ArrayUtils.decodePairs hex = Some bs ->
  all_hex hex = true /\ String.length hex = (2 * List.length bs)%nat /\
  Uint8ArrayUtils.toHex bs = lowercase hex.
Proof.
  revert bs. induction hex as [| c | c1 c2 s IH] using string_pair_ind; intros bs H.
  - injection H as <-. now repeat split.
  - discriminate H.
  - cbn [Uint8ArrayUtils.decodePairs] in H.
    destruct (Uint8ArrayUtils.hexDigitValue c1) as [hi|] eqn:E1; [|discriminate].
    destruct (Uint8ArrayUtils.hexDigitValue c2) as [lo|] eqn:E2; [|discriminate].
    destruct (Uint8ArrayUtils.decodePairs s) as [bs'|] eqn:E3; [|discriminate].
    destruct (byte_of_nibbles hi lo) as (b & Hb & Hdiv & Hmod);
      [eapply hexDigitValue_lt; eassumption|eapply hexDigitValue_lt; eassumption|].
    rewrite Hb in H. injection H as <-.
    destruct (IH bs' eq_refl) as (Hhex & Hlen & Hlow).
    cbn [all_hex]. rewrite !hex_digit_class, !hexClass_value, E1, E2, Hhex.
    split; [reflexivity|]. split; [simpl; lia|].
    cbn [Uint8ArrayUtils.toHex lowercase]. rewrite Hdiv, Hmod, Hlow.
    now rewrite (hexDigit_lower c1 hi E1), (hexDigit_lower c2 lo E2).
Qed.

Lemma decodePairs_total (hex : string) :
  all_hex hex = true -> Nat.even (String.length hex) = true ->
  exists bs, Uint8ArrayUtils.decodePairs hex = Some bs.
Proof.
  induction hex as [| c | c1 c2 s IH] using string_pair_ind; intros Hhex Heven.
  - now exists [].
  - discriminate Heven.
  - cbn [all_hex] in Hhex. rewrite !hex_digit_class, !andb_true_iff, !hexClass_value in Hhex.
    destruct Hhex as (H1 & H2 & Hs).
    cbn [Uint8ArrayUtils.decodePairs].
    destruct (Uint8ArrayUtils.hexDigitValue c1) as [hi|] eqn:E1; [|discriminate].
    destruct (Uint8ArrayUtils.hexDigitValue c2) as [lo|] eqn:E2; [|discriminate].
    destruct (IH Hs Heven) as [bs' ->].
    destruct (byte_of_nibbles hi lo) as (b & -> & _);
      [eapply hexDigitValue_lt; eassumption|eapply hexDigitValue_lt; eassumption|].
    now exists (b :: bs').
Qed.

(** The decoder returns exactly on 32 hex digits, and then gives 16 bytes
    whose encoding is the lower-cased input. *)
Lemma codec_fromHex_returns (hex : string) :
  returns (Uint8ArrayUtils.fromHex hex) <->
  String.length hex = 32 /\ all_hex hex = true.
Proof.
  unfold Uint8ArrayUtils.fromHex, returns. split.
  - intros [bs H]. destruct (Nat.eqb_spec (String.length hex) 32); [|discriminate].
    destruct (Uint8ArrayUtils.decodePairs hex) as [bs'|] eqn:E; [|discriminate].
    split; [assumption|]. now apply decodePairs_Some in E.
  - intros [Hlen Hhex]. rewrite Hlen. simpl.
    destruct (decodePairs_total hex Hhex) as [bs ->]; [now rewrite Hlen|].
    now exists bs.
Qed.

Lemma codec_fromHex_throws (hex : string) :
  ~ returns (Uint8ArrayUtils.fromHex hex) ->
  Uint8ArrayUtils.fromHex hex = Throw HexDecodeFailure.
Proof.
  unfold Uint8ArrayUtils.fromHex, returns. intros H.
  destruct (Nat.eqb (String.length hex) 32); [|reflexivity].
  destruct (Uint8ArrayUtils.decodePairs hex) as [bs|]; [|reflexivity].
  elim H. now exists bs.
Qed.

Lemma codec_roundtrip (hex : string) (bs : Uint8Array) :
  Uint8ArrayUtils.fromHex hex = Return bs ->
  byteLength bs = 16 /\ Uint8ArrayUtils.toHex bs = lowercase hex.
Proof.
  unfold Uint8ArrayUtils.fromHex. intros H.
  destruct (Nat.eqb_spec (String.length hex) 32) as [Hlen|]; [|discriminate].
  destruct (Uint8ArrayUtils.decodePairs hex) as [bs'|] eqn:E; [|discriminate].
  injection H as <-. apply decodePairs_Some in E. destruct E as (_ & Hl & Hlow).
  split; [unfold byteLength; lia|exact Hlow].
Qed.

(** ** Strings *)

Lemma fromString_eq (s : string) :
  fromString s = (b <- parseString s ;; Return (mkUUID b None None)).
Proof.
  unfold fromString. destruct (parseString s); [|reflexivity].
  cbn [bind]. apply new_UUID_Uint8Array.
Qed.

Lemma fromHex_eq (h : string) :
  fromHex h = (b <- parseHex h ;; Return (mkUUID b None None)).
Proof.
  unfold fromHex. destruct (parseHex h); [|reflexivity].
  cbn [bind]. apply new_UUID_Uint8Array.
Qed.

Lemma from_eq (input : JsValue) :
  from input = (b <- parse input ;; Return (mkUUID b None None)).
Proof.
  unfold from. destruct (parse input); [|reflexivity].
  cbn [bind]. apply fromBytes_eq.
Qed.

Lemma parse_36 (s : string) : String.length s = 36 -> parse (VString s) = parseString s.
Proof. intros H. cbn [parse]. now rewrite H. Qed.

Lemma parse_32 (s : string) : String.length s = 32 -> parse (VString s) = parseHex s.
Proof. intros H. cbn [parse]. now rewrite H. Qed.

(** C1 (counterexample): the nil UUID's own string has length 36 and does
    not match the canonical pattern (its version character is 0), yet
    [fromString], [from] and the constructor all parse it, and no
    FormatError is thrown. *)
Lemma nil_string_parses :
  let s := "00000000-0000-0000-0000-000000000000" in
  String.length s = 36 /\ rfc4122_form s = false /\
  fromString s = Return (mkUUID (new_Uint8Array 16) None None) /\
  from (VString s) = Return (mkUUID (new_Uint8Array 16) None None) /\
  new_UUID (VString s) = Return (mkUUID (new_Uint8Array 16) None None) /\
  ~ throws_kind FormatError (parse (VString s)).
Proof.
  repeat split. intros [e [H _]]. discriminate H.
Qed.

(** Neither are the positions of the hyphens checked. *)
Example leading_hyphens_parse :
  rfc4122_form "----9e472052a65446939a8b3ce57ada3d6c" = false /\
  fromString "----9e472052a65446939a8b3ce57ada3d6c" = fromString sample.
Proof. split; reflexivity. Qed.

(** C1 (amended): for a string [s] of length 36, [fromString], [from] and
    the constructor all build the instance from [parse]; if [s] matches the
    canonical pattern, parsing succeeds and gives 16 bytes; parsing succeeds
    exactly when [s] without its hyphens is 32 hex digits; and when it does
    not succeed it throws a FormatError. *)
Theorem parse_string_36 (s : string) :
  String.length s = 36 ->
  let construct := (b <- parse (VString s) ;; Return (mkUUID b None None)) in
  fromString s = construct /\
  from (VString s) = construct /\
  new_UUID (VString s) = construct /\
  (rfc4122_form s = true ->
     exists b, parse (VString s) = Return b /\ byteLength b = 16) /\
  (returns (parse (VString s)) <->
     String.length (stripHyphens s) = 32 /\ all_hex (stripHyphens s) = true) /\
  (~ returns (parse (VString s)) -> throws_kind FormatError (parse (VString s))).
Proof.
  intros Hlen construct. subst construct.
  rewrite fromString_eq, from_eq, (parse_36 s Hlen).
  split; [reflexivity|]. split; [reflexivity|].
  split; [unfold new_UUID; now rewrite (parse_36 s Hlen)|].
  unfold parseString, parseHex. split; [|split].
  - intros H. rewrite <- REGEX_RFC4122_form in H.
    apply REGEX_RFC4122_strip in H. destruct H as [H _].
    apply REGEX_HEX_shape in H. apply codec_fromHex_returns in H.
    destruct H as [b Hb]. exists b. split; [exact Hb|].
    now apply codec_roundtrip in Hb.
  - apply codec_fromHex_returns.
  - intros H. exists HexDecodeFailure. split; [|reflexivity].
    now apply codec_fromHex_throws.
Qed.

Lemma parse_string_36_witness :
  let s := "9E472052-a654-4693-9A8B-3ce57ada3d6c" in
  let construct := (b <- parse (VString s) ;; Return (mkUUID b None None)) in
  fromString s = construct /\
  from (VString s) = construct /\
  new_UUID (VString s) = construct /\
  (rfc4122_form s = true ->
     exists b, parse (VString s) = Return b /\ byteLength b = 16) /\
  (returns (parse (VString s)) <->
     String.length (stripHyphens s) = 32 /\ all_hex (stripHyphens s) = true) /\
  (~ returns (parse (VString s)) -> throws_kind FormatError (parse (VString s))).
Proof.
  apply parse_string_36. reflexivity.
Defined.

(** C4: for a string [s] that matches the canonical pattern,
    [fromString(s).toString()] is [s] in lower case; for a string [h] that
    matches the hex pattern, [fromHex(h).toHex()] is [h] in lower case. *)
Theorem string_roundtrip :
  (forall s, rfc4122_form s = true ->
     exists u v, fromString s = Return u /\ toString u = Return (lowercase s, v)) /\
  (forall h, hex_form h = true ->
     exists u, fromHex h = Return u /\ fst (toHex u) = lowercase h).
Proof.
  split.
  - intros s H. rewrite <- REGEX_RFC4122_form in H.
    destruct (REGEX_RFC4122_strip s H) as [Hhex Hfmt].
    apply REGEX_HEX_shape, codec_fromHex_returns in Hhex. destruct Hhex as [b Hb].
    destruct (codec_roundtrip _ _ Hb) as [_ Hlow].
    rewrite fromString_eq. unfold parseString, parseHex. rewrite Hb. cbn [bind].
    eexists. eexists. split; [reflexivity|].
    unfold toString, toHex. cbn [_str _hex bytes]. rewrite Hlow, Hfmt. reflexivity.
  - intros h H. rewrite <- REGEX_HEX_form in H.
    apply REGEX_HEX_shape, codec_fromHex_returns in H. destruct H as [b Hb].
    destruct (codec_roundtrip _ _ Hb) as [_ Hlow].
    rewrite fromHex_eq. unfold parseHex. rewrite Hb. cbn [bind].
    eexists. split; [reflexivity|].
    unfold toHex. cbn [_hex bytes fst]. exact Hlow.
Qed.

Lemma string_roundtrip_witness :
  (exists u v, fromString "9E472052-A654-4693-9A8B-3CE57ADA3D6C" = Return u /\
               toString u = Return ("9e472052-a654-4693-9a8b-3ce57ada3d6c", v)) /\
  (exists u, fromHex "9E472052A65446939A8B3CE57ADA3D6C" = Return u /\
             fst (toHex u) = "9e472052a65446939a8b3ce57ada3d6c").
Proof.
  destruct string_roundtrip as [Hs Hh]. split.
  - apply (Hs "9E472052-A654-4693-9A8B-3CE57ADA3D6C"). reflexivity.
  - apply (Hh "9E472052A65446939A8B3CE57ADA3D6C"). reflexivity.
Defined.

(** * Further properties of the class *)

(** ** Formatting helpers *)

Lemma stripHyphens_congr (c : ascii) (r1 r2 : string) :
  stripHyphens r1 = stripHyphens r2 ->
  stripHyphens (String c r1) = stripHyphens (String c r2).
Proof. intros H. cbn [stripHyphens]. rewrite H. reflexivity. Qed.

(** X1: [formatHex] throws on every string whose length is not 32; on a
    string of length 32 it returns a string of length 36 with hyphens at
    positions 8, 13, 18 and 23, whose other characters are those of the
    argument, in order. *)
Theorem formatHex_shape (hex : string) :
  (String.length hex <> 32 -> formatHex hex = Throw HexLengthMismatch) /\
  (String.length hex = 32 ->
   exists s, formatHex hex = Return s /\
             String.length s = 36 /\
             String.get 8 s = Some "-"%char /\ String.get 13 s = Some "-"%char /\
             String.get 18 s = Some "-"%char /\ String.get 23 s = Some "-"%char /\
             hex = substring 0 8 s ++ substring 9 4 s ++ substring 14 4 s ++
                   substring 19 4 s ++ substring 24 12 s /\
             stripHyphens s = stripHyphens hex).
Proof.
  split.
  - intros H. unfold formatHex, HEX_STR_LENGTH.
    destruct (Nat.eqb_spec (String.length hex) 32); [contradiction|reflexivity].
  - intros H. explode hex H 32. eexists. split; [reflexivity|].
    cbn [slice slice_from substring String.length Nat.sub String.append].
    do 6 (split; [reflexivity|]).
    repeat first [apply stripHyphens_congr | rewrite stripHyphens_hyphen].
    reflexivity.
Qed.

Lemma formatHex_shape_witness :
  exists s, formatHex "9e472052a65446939a8b3ce57ada3d6c" = Return s /\
            String.length s = 36 /\
            String.get 8 s = Some "-"%char /\ String.get 13 s = Some "-"%char /\
            String.get 18 s = Some "-"%char /\ String.get 23 s = Some "-"%char /\
            "9e472052a65446939a8b3ce57ada3d6c" =
              substring 0 8 s ++ substring 9 4 s ++ substring 14 4 s ++
              substring 19 4 s ++ substring 24 12 s /\
            stripHyphens s = stripHyphens "9e472052a65446939a8b3ce57ada3d6c".
Proof.
  apply (proj2 (formatHex_shape "9e472052a65446939a8b3ce57ada3d6c")). reflexivity.
Defined.

Lemma stripHyphens_no_hyphen (s : string) : ~ has_hyphen (stripHyphens s).
Proof.
  unfold has_hyphen. induction s as [|c s IH]; [intros []|].
  cbn [stripHyphens]. destruct (Ascii.eqb_spec c "-") as [->|Hc]; [exact IH|].
  cbn [list_ascii_of_string]. intros [H|H]; [now elim Hc|now apply IH].
Qed.

Lemma stripHyphens_fixed (s : string) : ~ has_hyphen s -> stripHyphens s = s.
Proof.
  unfold has_hyphen. induction s as [|c s IH]; [reflexivity|].
  cbn [list_ascii_of_string stripHyphens]. intros H.
  destruct (Ascii.eqb_spec c "-") as [->|Hc]; [elim H; now left|].
  rewrite IH; [reflexivity|]. intros Hs. apply H. now right.
Qed.

Lemma stripHyphens_length (s : string) :
  (String.length (stripHyphens s) <= String.length s)%nat.
Proof.
  induction s as [|c s IH]; [apply le_n|]. cbn [stripHyphens].
  destruct (Ascii.eqb c "-"); simpl; lia.
Qed.

(** X2: the result of [stripHyphens] holds no hyphen and is never longer
    than the argument; stripping twice is stripping once; and a string is
    left as it is exactly when it holds no hyphen. *)
Theorem stripHyphens_spec (s : string) :
  ~ has_hyphen (stripHyphens s) /\
  (String.length (stripHyphens s) <= String.length s)%nat /\
  stripHyphens (stripHyphens s) = stripHyphens s /\
  (stripHyphens s = s <-> ~ has_hyphen s).
Proof.
  split; [apply stripHyphens_no_hyphen|].
  split; [apply stripHyphens_length|].
  split; [apply stripHyphens_fixed, stripHyphens_no_hyphen|].
  split; [|apply stripHyphens_fixed].
  intros H. rewrite <- H. apply stripHyphens_no_hyphen.
Qed.

(** The characters a successful match of the hyphenated pattern leaves in
    the context, ready for [stripHyphens_hex]. *)
Ltac matched_chars :=
  repeat match goal with
         | M : atom_matches (Lit _) _ = true |- _ =>
             cbn [atom_matches] in M; apply Ascii.eqb_eq in M; subst
         end;
  repeat match goal with
         | M : atom_matches versionClass ?c = true |- _ =>
             pose proof (versionClass_hex c M); revert M
         | M : atom_matches variantClass ?c = true |- _ =>
             pose proof (variantClass_hex c M); revert M
         end;
  intros.

Lemma atom_matches_Lit (c : ascii) : atom_matches (Lit c) c = true.
Proof. apply Ascii.eqb_refl. Qed.

Ltac rewrite_matches :=
  cbn [match_anchored match_counted];
  repeat first
    [ rewrite atom_matches_Lit; cbn [match_anchored match_counted]
    | match goal with
      | M : atom_matches ?a ?c = true |- context [atom_matches ?a ?c] =>
          rewrite M; cbn [match_anchored match_counted]
      end ].

(** X3: the two patterns correspond through the two formatting helpers. A
    string accepted by [isValidString] is turned by [stripHyphens] into one
    accepted by [isValidHex], and [formatHex] gives the string back; a
    string accepted by [isValidHex] is turned by [formatHex] into one
    accepted by [isValidString], and [stripHyphens] gives the string back. *)
Theorem patterns_correspond :
  (forall s, isValidString (VString s) = true ->
     isValidHex (VString (stripHyphens s)) = true /\
     formatHex (stripHyphens s) = Return s) /\
  (forall h, isValidHex (VString h) = true ->
     exists s, formatHex h = Return s /\
               isValidString (VString s) = true /\
               stripHyphens s = h).
Proof.
  split.
  - intros s H. cbn [isValidString isValidHex] in *.
    split; [now apply REGEX_RFC4122_strip|].
    pose proof (match_anchored_length REGEX_RFC4122 s H) as Hlen. cbn in Hlen.
    explode s Hlen 36.
    unfold test, REGEX_RFC4122 in H. cbn [match_anchored match_counted] in H.
    read_match H. clear H. matched_chars.
    repeat first [rewrite stripHyphens_hyphen | rewrite stripHyphens_hex by assumption].
    reflexivity.
  - intros h H. cbn [isValidString isValidHex] in *.
    pose proof (match_anchored_length REGEX_HEX h H) as Hlen. cbn in Hlen.
    explode h Hlen 32.
    unfold test, REGEX_HEX in H. cbn [match_anchored match_counted] in H.
    read_match H. clear H.
    eexists. split; [reflexivity|].
    cbn [slice slice_from substring String.length Nat.sub String.append]. split.
    + unfold test, REGEX_RFC4122. rewrite_matches. reflexivity.
    + matched_chars.
      repeat first [rewrite stripHyphens_hyphen | rewrite stripHyphens_hex by assumption].
      reflexivity.
Qed.

Lemma patterns_correspond_witness :
  (isValidHex (VString (stripHyphens sample)) = true /\
   formatHex (stripHyphens sample) = Return sample) /\
  (exists s, formatHex "9e472052a65446939a8b3ce57ada3d6c" = Return s /\
             isValidString (VString s) = true /\
             stripHyphens s = "9e472052a65446939a8b3ce57ada3d6c").
Proof.
  destruct patterns_correspond as [Hs Hh]. split.
  - apply (Hs sample). reflexivity.
  - apply (Hh "9e472052a65446939a8b3ce57ada3d6c"). reflexivity.
Defined.

(** ** Parsing and construction *)

Lemma parse_returns_not_nullish (input : JsValue) :
  returns (parse input) -> is_nullish input = false.
Proof. intros [b H]. destruct input; simpl in *; congruence. Qed.

Lemma parse_throws_not_Uint8Array (input : JsValue) (e : Thrown) :
  parse input = Throw e -> forall arr, input <> VUint8Array arr.
Proof. intros H arr ->. rewrite parse_Uint8Array in H. discriminate. Qed.

Lemma differs_at_same (a : Uint8Array) (ix : list nat) : differs_at a a ix = false.
Proof. apply differs_at_compare_loop, compare_loop_refl. Qed.

(** X4: an exception of [parse] reaches the caller unchanged through every
    operation that parses: the constructor, [from], [version], [compare] in
    either argument position, and [equals] in the first position and in a
    later one (after arguments that are equal to the first). *)
Theorem parse_error_propagates (input : JsValue) (e : Thrown) :
  parse input = Throw e ->
  new_UUID input = Throw e /\
  from input = Throw e /\
  version input = Throw e /\
  (forall other, compare input other = Throw e) /\
  (forall other, returns (parse other) -> compare other input = Throw e) /\
  (is_nullish input = false ->
   forall x rest, equals (input :: x :: rest) = Throw e) /\
  (is_nullish input = false ->
   forall first same rest,
     returns (parse first) -> (forall x, In x same -> x = first) ->
     equals (first :: same ++ input :: rest)%list = Throw e).
Proof.
  intros H. split; [unfold new_UUID; now rewrite H|].
  split; [unfold from; now rewrite H|].
  split; [|split; [|split; [|split]]].
  - rewrite version_equation.
    destruct input; try (now rewrite H). rewrite parse_Uint8Array in H. discriminate.
  - intros other. unfold compare. now rewrite H.
  - intros other [b Hb]. unfold compare. now rewrite Hb, H.
  - intros Hn x rest. unfold equals. cbn [List.length Nat.ltb Nat.leb].
    now rewrite Hn, H.
  - intros Hn first same rest [ref Href] Hsame. unfold equals.
    assert (Hlen : (List.length (first :: same ++ input :: rest) <? 2)%nat = false).
    { apply Nat.ltb_ge. cbn [List.length]. rewrite length_app. cbn [List.length]. lia. }
    rewrite Hlen, (parse_returns_not_nullish first (ex_intro _ ref Href)), Href.
    cbn [bind]. clear Hlen.
    induction same as [|y same IH]; cbn [app equals_loop].
    + now rewrite Hn, H.
    + rewrite (Hsame y (or_introl eq_refl)).
      rewrite (parse_returns_not_nullish first (ex_intro _ ref Href)), Href.
      cbn [bind]. rewrite differs_at_same. apply IH.
      intros x Hx. apply Hsame. now right.
Qed.

Lemma parse_error_propagates_witness :
  let input := VString "not-a-uuid" in
  new_UUID input = Throw InvalidStringLength /\
  from input = Throw InvalidStringLength /\
  version input = Throw InvalidStringLength /\
  compare input VNull = Throw InvalidStringLength /\
  compare (VString sample) input = Throw InvalidStringLength /\
  equals [input; VNull] = Throw InvalidStringLength /\
  equals [VString sample; VString sample; input; VNull] = Throw InvalidStringLength.
Proof.
  destruct (parse_error_propagates (VString "not-a-uuid") InvalidStringLength eq_refl)
    as (H1 & H2 & H3 & H4 & H5 & H6 & H7).
  split; [exact H1|]. split; [exact H2|]. split; [exact H3|].
  split; [apply H4|]. split; [apply H5; eexists; reflexivity|].
  split; [apply H6; reflexivity|].
  apply (H7 eq_refl (VString sample) [VString sample] [VNull]).
  - eexists; reflexivity.
  - intros x [<-|[]]. reflexivity.
Defined.

(** X5: an instance built by [from] carries exactly the bytes [parse] gives
    for the input, with both caches empty; the constructor builds the same
    instance; and the instance cannot be told from the input: [equals] is
    true on the two, [compare] is 0, and [version] gives the same result. *)
Theorem from_indistinguishable (input : JsValue) (u : UUID) :
  from input = Return u ->
  parse input = Return (bytes u) /\
  _str u = None /\ _hex u = None /\
  new_UUID input = Return u /\
  equals [input; VUUID u] = Return true /\
  compare input (VUUID u) = Return 0%Z /\
  version (VUUID u) = version input.
Proof.
  rewrite from_eq. destruct (parse input) as [b|e] eqn:Hp; [|discriminate].
  cbn [bind]. intros H. injection H as <-. cbn [bytes _str _hex].
  do 3 (split; [reflexivity|]).
  split; [unfold new_UUID; now rewrite Hp|].
  assert (Hn : is_nullish input = false)
    by (apply parse_returns_not_nullish; now exists b).
  split; [|split].
  - unfold equals. cbn [List.length Nat.ltb Nat.leb]. rewrite Hn, Hp.
    cbn [bind equals_loop is_nullish]. rewrite parse_UUID. cbn [bind bytes].
    now rewrite differs_at_same.
  - unfold compare. rewrite Hp, parse_UUID. cbn [bind bytes].
    now rewrite compare_loop_refl.
  - rewrite (version_equation (VUUID _)), parse_UUID. cbn [bind bytes].
    rewrite (version_equation input).
    destruct input; try (rewrite Hp; reflexivity).
    rewrite parse_Uint8Array in Hp. injection Hp as ->. reflexivity.
Qed.

Lemma from_indistinguishable_witness :
  let input := VUint8Array [x01; x02; x03] in
  let u := mkUUID [x01; x02; x03] None None in
  parse input = Return (bytes u) /\
  _str u = None /\ _hex u = None /\
  new_UUID input = Return u /\
  equals [input; VUUID u] = Return true /\
  compare input (VUUID u) = Return 0%Z /\
  version (VUUID u) = version input.
Proof.
  apply (from_indistinguishable (VUint8Array [x01; x02; x03])). reflexivity.
Defined.

(** X16: [version] returns exactly on the inputs that [parse] turns into 16
    bytes; on an input that parses to another number of bytes, an instance
    included, it throws the byte-length error. *)
Theorem version_returns_iff (input : JsValue) :
  (returns (version input) <->
   exists b, parse input = Return b /\ byteLength b = 16) /\
  (forall b, parse input = Return b -> byteLength b <> 16 ->
             version input = Throw (InvalidByteLength (byteLength b))).
Proof.
  assert (Hv : version input = (b <- parse input ;; version (VUint8Array b))).
  { rewrite (version_equation input). destruct input; try reflexivity.
    now rewrite parse_Uint8Array. }
  rewrite Hv. split; [split|].
  - intros [v H]. destruct (parse input) as [b|e]; [|discriminate].
    exists b. split; [reflexivity|]. cbn [bind] in H.
    destruct (Nat.eq_dec (byteLength b) 16) as [E|E]; [exact E|].
    rewrite (version_not_16 b E) in H. discriminate.
  - intros (b & -> & Hlen). cbn [bind].
    destruct (version_16 b Hlen) as (x & _ & ->). now eexists.
  - intros b -> Hlen. cbn [bind]. now apply version_not_16.
Qed.

(** X17: on a string, the dispatch of [isValid] on the length changes
    nothing: the result is true exactly when one of [isValidString] and
    [isValidHex] accepts the string, and the two never accept the same
    string. *)
Theorem isValid_string_either (s : string) :
  isValid (VString s) =
    Return (isValidString (VString s) || isValidHex (VString s)) /\
  (isValidString (VString s) = true -> isValidHex (VString s) = false).
Proof.
  assert (Hs : isValidString (VString s) = true -> String.length s = 36).
  { intros H. apply (match_anchored_length REGEX_RFC4122 s H). }
  assert (Hh : isValidHex (VString s) = true -> String.length s = 32).
  { intros H. apply (match_anchored_length REGEX_HEX s H). }
  split.
  - unfold isValid. cbn [is_nullish]. unfold STR_LENGTH, HEX_STR_LENGTH.
    destruct (isValidString (VString s)) eqn:Es, (isValidHex (VString s)) eqn:Eh;
      try rewrite (Hs eq_refl); try rewrite (Hh eq_refl); try reflexivity.
    destruct (Nat.eqb (String.length s) 36), (Nat.eqb (String.length s) 32); reflexivity.
  - intros H. destruct (isValidHex (VString s)) eqn:Eh; [|reflexivity].
    rewrite (Hs H) in Hh. specialize (Hh eq_refl). discriminate.
Qed.

Lemma isValid_string_either_witness : isValidHex (VString sample) = false.
Proof. apply (proj2 (isValid_string_either sample)). reflexivity. Defined.

(** ** The memoised string views *)

Ltac coherent_goal :=
  repeat split; cbn [_hex _str bytes]; auto;
  try (let Hx := fresh in intros ? Hx; injection Hx as <-; auto).

(** X6: the caches stay coherent with the bytes. A new instance is coherent;
    on a coherent instance [toHex] returns the hex form of the bytes and
    [toString] the hyphenated form of that, whatever the caches hold; and
    the instance they leave behind has the same bytes, is coherent, and has
    the returned string in its cache. *)
Theorem caches_stay_coherent :
  (forall b, coherent (mkUUID b None None)) /\
  (forall u, coherent u ->
     fst (toHex u) = Uint8ArrayUtils.toHex (bytes u) /\
     bytes (snd (toHex u)) = bytes u /\
     _hex (snd (toHex u)) = Some (fst (toHex u)) /\
     coherent (snd (toHex u))) /\
  (forall u s u', coherent u -> toString u = Return (s, u') ->
     formatHex (Uint8ArrayUtils.toHex (bytes u)) = Return s /\
     bytes u' = bytes u /\ _str u' = Some s /\ coherent u').
Proof.
  split; [|split].
  - intros b. split; cbn [_hex _str]; discriminate.
  - intros [b str hex] [Hh Hs]. cbn [_hex _str bytes] in *. unfold toHex.
    cbn [_hex _str bytes]. destruct hex as [h|]; cbn [fst snd bytes _hex].
    + rewrite <- (Hh h eq_refl). coherent_goal.
    + coherent_goal.
  - intros [b str hex] s u' [Hh Hs]. cbn [_hex _str bytes] in *. unfold toString, toHex.
    cbn [_hex _str bytes]. destruct str as [s0|].
    + intros H. injection H as <- <-. coherent_goal.
    + destruct hex as [h|].
      * rewrite (Hh h eq_refl).
        destruct (formatHex (Uint8ArrayUtils.toHex b)) as [s1|e] eqn:E; [|discriminate].
        cbn [bind bytes _hex]. intros H. injection H as <- <-. coherent_goal.
      * destruct (formatHex (Uint8ArrayUtils.toHex b)) as [s1|e] eqn:E; [|discriminate].
        cbn [bind bytes _hex]. intros H. injection H as <- <-. coherent_goal.
Qed.

Lemma caches_stay_coherent_witness :
  let u := mkUUID (new_Uint8Array 16) None None in
  fst (toHex u) = Uint8ArrayUtils.toHex (bytes u) /\
  bytes (snd (toHex u)) = bytes u /\
  _hex (snd (toHex u)) = Some (fst (toHex u)) /\
  coherent (snd (toHex u)).
Proof.
  destruct caches_stay_coherent as (Hnew & Hhex & _).
  apply Hhex. apply Hnew.
Defined.

(** X7: the string views are computed once. After [toHex] or a successful
    [toString], the same call on the instance left behind returns the same
    string and leaves the instance as it is; [toJSON] then returns that
    string too, and [toString] does not change what [toHex] returns. *)
Theorem views_are_memoised (u : UUID) :
  toHex (snd (toHex u)) = toHex u /\
  (forall s u', toString u = Return (s, u') ->
     toString u' = Return (s, u') /\
     toJSON u' = Return (s, u') /\
     fst (toHex u') = fst (toHex u)).
Proof.
  destruct u as [b str hex]. split.
  - unfold toHex. cbn [_hex _str bytes]. destruct hex; reflexivity.
  - intros s u'. unfold toJSON, toString, toHex. cbn [_hex _str bytes].
    destruct str as [s0|].
    + intros H. injection H as <- <-. cbn [_hex _str bytes]. now repeat split.
    + destruct hex as [h|].
      * destruct (formatHex h) as [s1|e]; [|discriminate].
        cbn [bind bytes _hex]. intros H. injection H as <- <-. now repeat split.
      * destruct (formatHex (Uint8ArrayUtils.toHex b)) as [s1|e]; [|discriminate].
        cbn [bind bytes _hex]. intros H. injection H as <- <-. now repeat split.
Qed.

Lemma views_are_memoised_witness :
  let u := mkUUID (new_Uint8Array 16) None None in
  let s := "00000000-0000-0000-0000-000000000000" in
  let u' := mkUUID (new_Uint8Array 16) (Some s) (Some "00000000000000000000000000000000") in
  toString u' = Return (s, u') /\
  toJSON u' = Return (s, u') /\
  fst (toHex u') = fst (toHex u).
Proof.
  apply (proj2 (views_are_memoised (mkUUID (new_Uint8Array 16) None None))).
  reflexivity.
Defined.

(** ** Instance methods *)

(** X15: the instance methods are the static ones with the instance put
    first, and an instance always parses. So [u.equals()] without an
    argument throws the too-few-arguments error; [u.equals(x, ...)] returns
    false when [x] is [null] or [undefined], whatever follows; an instance
    is equal to itself and compares as 0 with itself; and [u.version()] is
    [UUID.version(u)]. *)
Theorem instance_methods (u : UUID) :
  throws_kind InvalidArgumentError (UUID_equals u []) /\
  (forall x rest, is_nullish x = true -> UUID_equals u (x :: rest) = Return false) /\
  UUID_equals u [VUUID u] = Return true /\
  UUID_compare u (VUUID u) = Return 0%Z /\
  UUID_version u = version (VUUID u).
Proof.
  split; [exists TooFewUuids; now split|].
  split; [|split; [|split]].
  - intros x rest Hx. unfold UUID_equals, equals.
    cbn [List.length Nat.ltb Nat.leb is_nullish].
    rewrite parse_UUID. cbn [bind equals_loop]. now rewrite Hx.
  - unfold UUID_equals, equals. cbn [List.length Nat.ltb Nat.leb is_nullish].
    rewrite parse_UUID. cbn [bind equals_loop is_nullish]. rewrite parse_UUID.
    cbn [bind]. now rewrite differs_at_same.
  - unfold UUID_compare, compare. rewrite parse_UUID. cbn [bind].
    now rewrite compare_loop_refl.
  - unfold UUID_version. rewrite (version_equation (VUUID u)), parse_UUID. reflexivity.
Qed.

Lemma instance_methods_witness :
  UUID_equals (mkUUID (new_Uint8Array 16) None None) [VNull; VString "not-a-uuid"] =
    Return false.
Proof.
  destruct (instance_methods (mkUUID (new_Uint8Array 16) None None)) as (_ & H & _).
  apply H. reflexivity.
Defined.

(** ** Equality of several inputs *)

Lemma differs_at_false_iff (a b : Uint8Array) (ix : list nat) :
  differs_at a b ix = false <-> forall i, In i ix -> index a i = index b i.
Proof.
  induction ix as [|j ix IH]; cbn [differs_at].
  - split; [intros _ i []|reflexivity].
  - destruct (strict_neq (index a j) (index b j)) eqn:E.
    + split; [discriminate|]. intros H.
      rewrite (proj2 (strict_neq_false _ _) (H j (or_introl eq_refl))) in E. discriminate.
    + apply strict_neq_false in E. rewrite IH. split.
      * intros H i [<-|Hi]; [exact E|now apply H].
      * intros H i Hi. apply H. now right.
Qed.

Lemma equals_two (a b : JsValue) (x y : Uint8Array) :
  parse a = Return x -> parse b = Return y ->
  equals [a; b] = Return (negb (differs_at x y (seq 0 BYTE_LENGTH))).
Proof.
  intros Ha Hb. unfold equals. cbn [List.length Nat.ltb Nat.leb].
  rewrite (parse_returns_not_nullish a (ex_intro _ x Ha)), Ha. cbn [bind equals_loop].
  rewrite (parse_returns_not_nullish b (ex_intro _ y Hb)), Hb. cbn [bind].
  now destruct (differs_at x y (seq 0 BYTE_LENGTH)).
Qed.

Lemma equals_loop_all (ref : Uint8Array) (rest : list JsValue) :
  (forall x, In x rest -> returns (parse x)) ->
  exists r, equals_loop ref rest = Return r /\
            (r = true <->
             forall x b, In x rest -> parse x = Return b ->
                         differs_at ref b (seq 0 BYTE_LENGTH) = false).
Proof.
  induction rest as [|y rest IH]; intros Hall; cbn [equals_loop].
  - exists true. split; [reflexivity|]. split; [intros _ x b []|reflexivity].
  - destruct (Hall y (or_introl eq_refl)) as [c Hc].
    rewrite (parse_returns_not_nullish y (ex_intro _ c Hc)), Hc. cbn [bind].
    destruct (differs_at ref c (seq 0 BYTE_LENGTH)) eqn:E.
    + exists false. split; [reflexivity|]. split; [discriminate|].
      intros H. rewrite (H y c (or_introl eq_refl) Hc) in E. discriminate.
    + destruct IH as (r & Hr & Hiff); [intros x Hx; apply Hall; now right|].
      exists r. split; [exact Hr|]. rewrite Hiff. split.
      * intros H x b [<-|Hx] Hb; [congruence|now apply (H x b)].
      * intros H x b Hx. apply H. now right.
Qed.

(** X8: when every argument parses, [equals] on two or more arguments
    returns a boolean, and the boolean is true exactly when [compare] of the
    first argument with each of the others is 0. *)
Theorem equals_true_iff (first : JsValue) (rest : list JsValue) :
  rest <> [] ->
  returns (parse first) ->
  (forall x, In x rest -> returns (parse x)) ->
  exists r, equals (first :: rest) = Return r /\
            (r = true <-> forall x, In x rest -> compare first x = Return 0%Z).
Proof.
  intros Hne [ref Href] Hall. unfold equals.
  assert (Hlen : (List.length (first :: rest) <? 2)%nat = false).
  { apply Nat.ltb_ge. destruct rest; [contradiction|simpl; lia]. }
  rewrite Hlen, (parse_returns_not_nullish first (ex_intro _ ref Href)), Href.
  cbn [bind]. destruct (equals_loop_all ref rest Hall) as (r & Hr & Hiff).
  exists r. split; [exact Hr|]. rewrite Hiff. split.
  - intros H x Hx. destruct (Hall x Hx) as [b Hb]. unfold compare.
    rewrite Href, Hb. cbn [bind]. f_equal.
    apply differs_at_compare_loop. now apply (H x b).
  - intros H x b Hx Hb. specialize (H x Hx). unfold compare in H.
    rewrite Href, Hb in H. cbn [bind] in H. injection H as H.
    now apply differs_at_compare_loop.
Qed.

Lemma equals_true_iff_witness :
  exists r, equals [VString sample; VString "9E472052A65446939A8B3CE57ADA3D6C";
                    VUint8Array (new_Uint8Array 16)] = Return r /\
            (r = true <->
             forall x, In x [VString "9E472052A65446939A8B3CE57ADA3D6C";
                             VUint8Array (new_Uint8Array 16)] ->
                       compare (VString sample) x = Return 0%Z).
Proof.
  apply equals_true_iff.
  - discriminate.
  - eexists; reflexivity.
  - intros x [<-|[<-|[]]]; eexists; reflexivity.
Defined.

(** X9: on inputs that parse, [equals] of two arguments is an equivalence:
    every input equals itself, the order of the two arguments does not
    matter, and two inputs equal to a third are equal. This holds for byte
    arrays of any length. *)
Theorem equals_equivalence (a b c : JsValue) :
  returns (parse a) -> returns (parse b) -> returns (parse c) ->
  equals [a; a] = Return true /\
  equals [a; b] = equals [b; a] /\
  (equals [a; b] = Return true -> equals [b; c] = Return true ->
   equals [a; c] = Return true).
Proof.
  intros [x Hx] [y Hy] [z Hz].
  rewrite (equals_two a a x x Hx Hx), (equals_two a b x y Hx Hy),
    (equals_two b a y x Hy Hx), (equals_two b c y z Hy Hz), (equals_two a c x z Hx Hz).
  split; [now rewrite differs_at_same|]. split.
  - f_equal. f_equal.
    destruct (differs_at x y (seq 0 BYTE_LENGTH)) eqn:E1,
             (differs_at y x (seq 0 BYTE_LENGTH)) eqn:E2; try reflexivity.
    + rewrite differs_at_false_iff in E2.
      assert (E : differs_at x y (seq 0 BYTE_LENGTH) = false)
        by (apply differs_at_false_iff; intros i Hi; symmetry; now apply E2).
      congruence.
    + rewrite differs_at_false_iff in E1.
      assert (E : differs_at y x (seq 0 BYTE_LENGTH) = false)
        by (apply differs_at_false_iff; intros i Hi; symmetry; now apply E1).
      congruence.
  - intros H1 H2.
    destruct (differs_at x y (seq 0 BYTE_LENGTH)) eqn:E1; [discriminate H1|].
    destruct (differs_at y z (seq 0 BYTE_LENGTH)) eqn:E2; [discriminate H2|].
    rewrite differs_at_false_iff in E1, E2.
    assert (E : differs_at x z (seq 0 BYTE_LENGTH) = false).
    { apply differs_at_false_iff. intros i Hi. now rewrite (E1 i Hi), (E2 i Hi). }
    now rewrite E.
Qed.

Lemma equals_equivalence_witness :
  let a := VString sample in
  let b := VString "9E472052A65446939A8B3CE57ADA3D6C" in
  let c := VUint8Array [x9e; x47; x20; x52; xa6; x54; x46; x93;
                        x9a; x8b; x3c; xe5; x7a; xda; x3d; x6c] in
  equals [a; a] = Return true /\
  equals [a; b] = equals [b; a] /\
  equals [a; c] = Return true.
Proof.
  destruct (equals_equivalence
              (VString sample) (VString "9E472052A65446939A8B3CE57ADA3D6C")
              (VUint8Array [x9e; x47; x20; x52; xa6; x54; x46; x93;
                            x9a; x8b; x3c; xe5; x7a; xda; x3d; x6c]))
    as (H1 & H2 & H3); try (eexists; reflexivity).
  split; [exact H1|]. split; [exact H2|]. apply H3; reflexivity.
Defined.

Lemma equals_loop_returns (ref : Uint8Array) (rest : list JsValue) :
  (forall x, In x rest -> is_nullish x = false -> returns (parse x)) ->
  returns (equals_loop ref rest).
Proof.
  induction rest as [|y rest IH]; intros Hall; cbn [equals_loop].
  - now exists true.
  - destruct (is_nullish y) eqn:Hy; [now exists false|].
    destruct (Hall y (or_introl eq_refl) Hy) as [c ->]. cbn [bind].
    destruct (differs_at ref c (seq 0 BYTE_LENGTH)); [now exists false|].
    apply IH. intros x Hx. apply Hall. now right.
Qed.

Lemma equals_loop_true (ref : Uint8Array) (rest : list JsValue) :
  equals_loop ref rest = Return true ->
  forall x, In x rest -> is_nullish x = false /\ returns (parse x).
Proof.
  induction rest as [|y rest IH]; cbn [equals_loop]; intros H x Hx; [destruct Hx|].
  destruct (is_nullish y) eqn:Hy; [discriminate|].
  destruct (parse y) as [c|e] eqn:Hc; [|discriminate]. cbn [bind] in H.
  destruct (differs_at ref c (seq 0 BYTE_LENGTH)); [discriminate|].
  destruct Hx as [<-|Hx]; [split; [exact Hy|now exists c]|now apply IH].
Qed.

(** X10: with two or more arguments [equals] cannot throw unless some
    argument that is not [null] or [undefined] fails to parse; and when it
    returns true, no argument was [null] or [undefined] and every argument
    parsed. *)
Theorem equals_returns (inputs : list JsValue) :
  ((2 <= List.length inputs)%nat ->
   (forall x, In x inputs -> is_nullish x = false -> returns (parse x)) ->
   returns (equals inputs)) /\
  (equals inputs = Return true ->
   forall x, In x inputs -> is_nullish x = false /\ returns (parse x)).
Proof.
  unfold equals. split.
  - intros Hlen Hall.
    destruct (Nat.ltb_spec (List.length inputs) 2); [lia|].
    destruct inputs as [|first rest]; [simpl in Hlen; lia|].
    destruct (is_nullish first) eqn:Hf; [now exists false|].
    destruct (Hall first (or_introl eq_refl) Hf) as [ref ->]. cbn [bind].
    apply equals_loop_returns. intros x Hx. apply Hall. now right.
  - destruct (List.length inputs <? 2)%nat; [discriminate|].
    destruct inputs as [|first rest]; [discriminate|].
    destruct (is_nullish first) eqn:Hf; [discriminate|].
    destruct (parse first) as [ref|e] eqn:Hp; [|discriminate]. cbn [bind].
    intros H x [<-|Hx]; [split; [exact Hf|now exists ref]|].
    now apply (equals_loop_true ref rest H).
Qed.

Lemma equals_returns_witness :
  returns (equals [VString sample; VNull; VUint8Array [x01]]) /\
  (is_nullish (VUUID (mkUUID (new_Uint8Array 16) None None)) = false /\
   returns (parse (VUUID (mkUUID (new_Uint8Array 16) None None)))).
Proof.
  split.
  - apply (proj1 (equals_returns [VString sample; VNull; VUint8Array [x01]])).
    + simpl. lia.
    + intros x [<-|[<-|[<-|[]]]] Hx; try discriminate Hx; eexists; reflexivity.
  - apply (proj2 (equals_returns [VUint8Array (new_Uint8Array 16);
                                  VUUID (mkUUID (new_Uint8Array 16) None None)])).
    + reflexivity.
    + right. now left.
Defined.

(** ** Ordering, continued *)

Lemma Return_inj {A : Type} (a b : A) : Return a = Return b -> a = b.
Proof. intros H. now injection H. Qed.

(** X11: [compare] returns exactly when both arguments parse; what it
    returns is -1, 0 or 1; and it returns 0 on an input and itself, for byte
    arrays of any length. *)
Theorem compare_returns_iff (a b : JsValue) :
  (returns (compare a b) <-> returns (parse a) /\ returns (parse b)) /\
  (forall r, compare a b = Return r -> r = (-1)%Z \/ r = 0%Z \/ r = 1%Z) /\
  (returns (parse a) -> compare a a = Return 0%Z).
Proof.
  unfold compare. split; [split|split].
  - intros [r H]. destruct (parse a) as [x|]; [|discriminate].
    destruct (parse b) as [y|]; [|discriminate]. split; eexists; reflexivity.
  - intros [[x ->] [y ->]]. eexists; reflexivity.
  - intros r H. destruct (parse a) as [x|]; [|discriminate].
    destruct (parse b) as [y|]; [|discriminate]. cbn [bind] in H.
    apply Return_inj in H. subst r. apply compare_loop_values.
  - intros [x ->]. cbn [bind]. now rewrite compare_loop_refl.
Qed.

Lemma compare_returns_iff_witness :
  compare (VUint8Array [x01; x02; x03]) (VUint8Array [x01; x02; x03]) = Return 0%Z.
Proof.
  apply (proj2 (proj2 (compare_returns_iff (VUint8Array [x01; x02; x03])
                                           (VUint8Array [x01; x02; x03])))).
  eexists; reflexivity.
Defined.

Lemma compare_loop_shift (c d : byte) (x y : Uint8Array) (ix : list nat) :
  compare_loop (c :: x) (d :: y) (map S ix) = compare_loop x y ix.
Proof.
  induction ix as [|i ix IH]; [reflexivity|].
  cbn [map compare_loop]. unfold index in *. cbn [nth_error]. now rewrite IH.
Qed.

Lemma compare_loop_lex (x : Uint8Array) :
  forall y, List.length x = List.length y ->
            compare_loop x y (seq 0 (List.length x)) =
            lex_compare (map Byte.to_N x) (map Byte.to_N y).
Proof.
  induction x as [|c x IH]; intros [|d y] Hlen; try discriminate Hlen; [reflexivity|].
  cbn [List.length seq map lex_compare compare_loop].
  unfold index at 1 2 3 4. cbn [nth_error strict_neq js_lt].
  rewrite byte_eqb_to_N, <- seq_shift, compare_loop_shift.
  destruct (N.compare_spec (Byte.to_N c) (Byte.to_N d)) as [E|E|E].
  - rewrite (proj2 (N.eqb_eq _ _) E). cbn [negb]. apply IH.
    simpl in Hlen. now injection Hlen.
  - rewrite (proj2 (N.eqb_neq _ _)) by lia. cbn [negb].
    now rewrite (proj2 (N.ltb_lt _ _) E).
  - rewrite (proj2 (N.eqb_neq _ _)) by lia. cbn [negb].
    rewrite (proj2 (N.ltb_ge _ _)) by lia. reflexivity.
Qed.

(** X12: on two inputs that parse to 16 bytes each, [compare] is the
    lexicographic comparison of the two byte sequences read as unsigned
    numbers. *)
Theorem compare_lexicographic (a b : JsValue) (x y : Uint8Array) :
  parse a = Return x -> parse b = Return y ->
  byteLength x = 16 -> byteLength y = 16 ->
  compare a b = Return (lex_compare (map Byte.to_N x) (map Byte.to_N y)).
Proof.
  intros Ha Hb Hx Hy. unfold compare. rewrite Ha, Hb. cbn [bind]. f_equal.
  unfold BYTE_LENGTH. rewrite <- Hx. apply compare_loop_lex.
  unfold byteLength in *. congruence.
Qed.

Lemma compare_lexicographic_witness :
  compare (VString sample) (VUint8Array (new_Uint8Array 16)) =
  Return (lex_compare
            (map Byte.to_N [x9e; x47; x20; x52; xa6; x54; x46; x93;
                            x9a; x8b; x3c; xe5; x7a; xda; x3d; x6c])
            (map Byte.to_N (new_Uint8Array 16))).
Proof.
  apply compare_lexicographic; reflexivity.
Defined.

Lemma lex_compare_zeros (n : nat) (ys : list N) :
  (lex_compare (repeat 0%N n) ys <= 0)%Z.
Proof.
  revert ys. induction n as [|n IH]; intros [|y ys]; cbn [repeat lex_compare]; try lia.
  destruct (N.compare_spec 0 y); [apply IH|lia|lia].
Qed.

Lemma lex_compare_top (n : nat) (ys : list N) :
  Forall (fun y => (y <= 255)%N) ys ->
  (0 <= lex_compare (repeat 255%N n) ys)%Z.
Proof.
  intros H. revert n. induction H as [|y ys Hy Hys IH]; intros [|n];
    cbn [repeat lex_compare]; try lia.
  destruct (N.compare_spec 255 y); [apply IH|lia|lia].
Qed.

(** X13: among the inputs that parse to 16 bytes, the nil UUID is the least
    and the max UUID the greatest: [compare(nil(), x)] is never 1 and
    [compare(max(), x)] is never -1. *)
Theorem nil_least_max_greatest (x : JsValue) (b : Uint8Array) :
  parse x = Return b -> byteLength b = 16 ->
  exists n m r1 r2,
    nil = Return n /\ max = Return m /\
    compare (VUUID n) x = Return r1 /\ compare (VUUID m) x = Return r2 /\
    (r1 <= 0 <= r2)%Z.
Proof.
  intros Hp Hlen.
  exists (mkUUID (new_Uint8Array 16) None None),
         (mkUUID (fill (new_Uint8Array 16) xff) None None).
  do 2 eexists. split; [reflexivity|]. split; [reflexivity|].
  unfold compare. rewrite !parse_UUID, Hp. cbn [bind bytes].
  split; [reflexivity|]. split; [reflexivity|].
  unfold byteLength in Hlen.
  change (seq 0 BYTE_LENGTH) with (seq 0 (List.length (new_Uint8Array 16))) at 1.
  change (seq 0 BYTE_LENGTH)
    with (seq 0 (List.length (fill (new_Uint8Array 16) xff))).
  rewrite !compare_loop_lex by (rewrite Hlen; reflexivity).
  split.
  - apply (lex_compare_zeros 16).
  - apply (lex_compare_top 16). apply Forall_forall. intros y Hy.
    apply in_map_iff in Hy. destruct Hy as (c & <- & _). apply Byte.to_N_bounded.
Qed.

Lemma nil_least_max_greatest_witness :
  exists n m r1 r2,
    nil = Return n /\ max = Return m /\
    compare (VUUID n) (VString sample) = Return r1 /\
    compare (VUUID m) (VString sample) = Return r2 /\
    (r1 <= 0 <= r2)%Z.
Proof.
  apply (nil_least_max_greatest (VString sample)
           [x9e; x47; x20; x52; xa6; x54; x46; x93;
            x9a; x8b; x3c; xe5; x7a; xda; x3d; x6c]); reflexivity.
Defined.

(** ** String validation against byte validation *)

Lemma decodePairs_high_nibble (hex : string) :
  forall bs, Uint8ArrayUtils.decodePairs hex = Some bs ->
  forall k b, nth_error bs k = Some b ->
  exists c hi, String.get (2 * k) hex = Some c /\
               Uint8ArrayUtils.hexDigitValue c = Some hi /\
               (Byte.to_N b / 16 = hi)%N.
Proof.
  induction hex as [| c | c1 c2 s IH] using string_pair_ind; intros bs H k b Hk.
  - injection H as <-. destruct k; discriminate Hk.
  - discriminate H.
  - cbn [Uint8ArrayUtils.decodePairs] in H.
    destruct (Uint8ArrayUtils.hexDigitValue c1) as [hi|] eqn:E1; [|discriminate].
    destruct (Uint8ArrayUtils.hexDigitValue c2) as [lo|] eqn:E2; [|discriminate].
    destruct (Uint8ArrayUtils.decodePairs s) as [bs'|] eqn:E3; [|discriminate].
    destruct (byte_of_nibbles hi lo) as (b0 & Hb & Hdiv & _);
      [eapply hexDigitValue_lt; eassumption|eapply hexDigitValue_lt; eassumption|].
    rewrite Hb in H. injection H as <-.
    destruct k as [|k].
    + injection Hk as <-. exists c1, hi. now repeat split.
    + cbn [nth_error] in Hk. destruct (IH bs' eq_refl k b Hk) as (c & h & Hc & Hh & Hd).
      exists c, h. replace (2 * S k)%nat with (S (S (2 * k))) by lia.
      now repeat split.
Qed.

Lemma version_char_value (c : ascii) (hi : N) :
  in_chars "12345" c = true -> Uint8ArrayUtils.hexDigitValue c = Some hi ->
  (1 <= hi <= 5)%N.
Proof.
  each_ascii c; intros H1 H2; vm_compute in H1; try discriminate H1;
    vm_compute in H2; injection H2 as <-; split; discriminate.
Qed.

Lemma variant_char_value (c : ascii) (hi : N) :
  in_chars "89abAB" c = true -> Uint8ArrayUtils.hexDigitValue c = Some hi ->
  (8 <= hi <= 11)%N.
Proof.
  each_ascii c; intros H1 H2; vm_compute in H1; try discriminate H1;
    vm_compute in H2; injection H2 as <-; split; discriminate.
Qed.

Lemma variant_of_high_nibble (x : byte) :
  (8 <= Byte.to_N x / 16 <= 11)%N -> Z.shiftr (Z.of_N (Byte.to_N x)) 6 = 2%Z.
Proof.
  destruct x; intros [H1 H2];
    first [reflexivity
          | exfalso; vm_compute in H1, H2; first [now apply H1 | now apply H2]].
Qed.

Lemma char_at_true (s : string) (i : nat) (p : ascii -> bool) :
  char_at s i p = true -> exists c, String.get i s = Some c /\ p c = true.
Proof.
  unfold char_at. destruct (String.get i s) as [c|]; [|discriminate].
  intros H. now exists c.
Qed.

Lemma REGEX_HEX_valid_bytes (h : string) :
  test REGEX_HEX h = true ->
  exists b, Uint8ArrayUtils.fromHex h = Return b /\ byteLength b = 16 /\
            isValidBytes b = Return true.
Proof.
  intros H.
  destruct (proj2 (codec_fromHex_returns h) (REGEX_HEX_shape h H)) as [b Hb].
  destruct (codec_roundtrip h b Hb) as [Hlen _].
  exists b. split; [exact Hb|]. split; [exact Hlen|].
  assert (Hdec : Uint8ArrayUtils.decodePairs h = Some b).
  { unfold Uint8ArrayUtils.fromHex in Hb.
    destruct (Nat.eqb (String.length h) 32); [|discriminate].
    destruct (Uint8ArrayUtils.decodePairs h); [|discriminate]. now injection Hb as ->. }
  rewrite REGEX_HEX_form in H. unfold hex_form in H.
  apply andb_true_iff in H. destruct H as [_ H]. rewrite forallb_forall in H.
  pose proof (H 12%nat (proj2 (in_seq 32 0 12) ltac:(lia))) as H12.
  pose proof (H 16%nat (proj2 (in_seq 32 0 16) ltac:(lia))) as H16.
  cbn [Nat.eqb] in H12, H16.
  apply char_at_true in H12, H16.
  destruct H12 as (cv & Gv & Pv). destruct H16 as (cn & Gn & Pn).
  destruct (index_in_range b 6) as [b6 H6]; [lia|].
  destruct (index_in_range b 8) as [b8 H8]; [lia|].
  destruct (decodePairs_high_nibble h b Hdec 6 b6 H6) as (c & hi & Gc & Vc & Dc).
  destruct (decodePairs_high_nibble h b Hdec 8 b8 H8) as (c' & hi' & Gc' & Vc' & Dc').
  cbn [Nat.mul Nat.add] in Gc, Gc'. rewrite Gv in Gc. rewrite Gn in Gc'.
  injection Gc as <-. injection Gc' as <-.
  pose proof (version_char_value cv hi Pv Vc) as Rv.
  pose proof (variant_char_value cn hi' Pn Vc') as Rn.
  rewrite (isValidBytes_16 b Hlen). unfold version_nibble, variant_bits.
  rewrite H6, H8. cbn [toInt32]. rewrite high_nibble, Dc.
  rewrite (variant_of_high_nibble b8) by (rewrite Dc'; exact Rn).
  destruct (Z.leb_spec 1 (Z.of_N hi)), (Z.leb_spec (Z.of_N hi) 5); try lia.
  reflexivity.
Qed.

(** X14: string validation agrees with byte validation. When [isValid]
    accepts a string, [parse] turns the string into 16 bytes that
    [isValidBytes] accepts, so the instance [from] builds from the string is
    accepted by [isValid] as well. (The string is decoded by the hex decoder
    of [./utils], taken from the design document.) *)
Theorem valid_string_gives_valid_bytes (s : string) :
  isValid (VString s) = Return true ->
  exists b, parse (VString s) = Return b /\ byteLength b = 16 /\
            isValidBytes b = Return true /\
            from (VString s) = Return (mkUUID b None None) /\
            isValid (VUUID (mkUUID b None None)) = Return true.
Proof.
  intros H.
  assert (Hb : exists b, parse (VString s) = Return b /\ byteLength b = 16 /\
                         isValidBytes b = Return true).
  { unfold isValid in H. cbn [is_nullish isValidString isValidHex] in H.
    cbn [parse]. unfold STR_LENGTH, HEX_STR_LENGTH, parseString, parseHex in *.
    destruct (Nat.eqb (String.length s) 36).
    - apply Return_inj in H. apply REGEX_HEX_valid_bytes. now apply REGEX_RFC4122_strip.
    - destruct (Nat.eqb (String.length s) 32); [|discriminate].
      apply Return_inj in H. now apply REGEX_HEX_valid_bytes. }
  destruct Hb as (b & Hp & Hlen & Hv). exists b.
  split; [exact Hp|]. split; [exact Hlen|]. split; [exact Hv|].
  split; [rewrite from_eq, Hp; reflexivity|exact Hv].
Qed.

Lemma valid_string_gives_valid_bytes_witness :
  exists b, parse (VString sample) = Return b /\ byteLength b = 16 /\
            isValidBytes b = Return true /\
            from (VString sample) = Return (mkUUID b None None) /\
            isValid (VUUID (mkUUID b None None)) = Return true.
Proof.
  apply valid_string_gives_valid_bytes. reflexivity.
Defined.

(** ** From bytes to strings and back *)

Lemma codec_toHex_length (bs : Uint8Array) :
  String.length (Uint8ArrayUtils.toHex bs) = (2 * List.length bs)%nat.
Proof. induction bs as [|b bs IH]; [reflexivity|]. simpl. rewrite IH. lia. Qed.

Lemma codec_digits_of_byte (x : byte) :
  Uint8ArrayUtils.hexDigitValue (Uint8ArrayUtils.hexDigit (Byte.to_N x / 16)) =
    Some (Byte.to_N x / 16)%N /\
  Uint8ArrayUtils.hexDigitValue (Uint8ArrayUtils.hexDigit (Byte.to_N x mod 16)) =
    Some (Byte.to_N x mod 16)%N /\
  Byte.of_N (16 * (Byte.to_N x / 16) + Byte.to_N x mod 16) = Some x /\
  Ascii.eqb (Uint8ArrayUtils.hexDigit (Byte.to_N x / 16)) "-" = false /\
  Ascii.eqb (Uint8ArrayUtils.hexDigit (Byte.to_N x mod 16)) "-" = false.
Proof. destruct x; repeat split. Qed.

Lemma codec_decode_toHex (bs : Uint8Array) :
  Uint8ArrayUtils.decodePairs (Uint8ArrayUtils.toHex bs) = Some bs.
Proof.
  induction bs as [|b bs IH]; [reflexivity|].
  cbn [Uint8ArrayUtils.toHex Uint8ArrayUtils.decodePairs].
  destruct (codec_digits_of_byte b) as (-> & -> & -> & _). now rewrite IH.
Qed.

Lemma codec_toHex_no_hyphen (bs : Uint8Array) :
  stripHyphens (Uint8ArrayUtils.toHex bs) = Uint8ArrayUtils.toHex bs.
Proof.
  induction bs as [|b bs IH]; [reflexivity|].
  cbn [Uint8ArrayUtils.toHex stripHyphens].
  destruct (codec_digits_of_byte b) as (_ & _ & _ & -> & ->). now rewrite IH.
Qed.

Lemma formatHex_32 (hex : string) :
  String.length hex = 32 ->
  exists s, formatHex hex = Return s /\ String.length s = 36 /\
            stripHyphens s = stripHyphens hex.
Proof.
  intros H. explode hex H 32. eexists. split; [reflexivity|].
  cbn [slice slice_from substring String.length Nat.sub String.append].
  split; [reflexivity|].
  repeat first [apply stripHyphens_congr | rewrite stripHyphens_hyphen].
  reflexivity.
Qed.

(** X18: an instance of 16 bytes, whatever the bytes, has a string form of
    36 characters and a hex form of 32, and [parse] turns either string back
    into the same 16 bytes; so an instance rebuilt from its own string is
    equal to the original. (Encoding and decoding are those of [./utils],
    taken from the design document.) *)
Theorem bytes_string_roundtrip (b : Uint8Array) :
  byteLength b = 16 ->
  let u := mkUUID b None None in
  exists s v,
    toString u = Return (s, v) /\
    String.length s = 36 /\
    String.length (fst (toHex u)) = 32 /\
    parse (VString s) = Return b /\
    parse (VString (fst (toHex u))) = Return b /\
    equals [VString s; VUUID u] = Return true.
Proof.
  intros Hlen u. subst u. unfold byteLength in Hlen.
  unfold toString, toHex. cbn [_str _hex bytes fst].
  assert (H32 : String.length (Uint8ArrayUtils.toHex b) = 32)
    by (rewrite codec_toHex_length, Hlen; reflexivity).
  destruct (formatHex_32 _ H32) as (s & Hs & Hs36 & Hstrip).
  rewrite Hs. cbn [bind]. do 2 eexists. split; [reflexivity|].
  split; [exact Hs36|]. split; [exact H32|].
  assert (Hdec : Uint8ArrayUtils.fromHex (Uint8ArrayUtils.toHex b) = Return b).
  { unfold Uint8ArrayUtils.fromHex. now rewrite H32, codec_decode_toHex. }
  assert (Hp : parse (VString s) = Return b).
  { rewrite (parse_36 s Hs36). unfold parseString, parseHex.
    now rewrite Hstrip, codec_toHex_no_hyphen. }
  split; [exact Hp|]. split; [now rewrite (parse_32 _ H32)|].
  rewrite (equals_two _ _ b b Hp (parse_UUID (mkUUID b None None))).
  now rewrite differs_at_same.
Qed.

Lemma bytes_string_roundtrip_witness :
  let u := mkUUID (new_Uint8Array 16) None None in
  exists s v,
    toString u = Return (s, v) /\
    String.length s = 36 /\
    String.length (fst (toHex u)) = 32 /\
    parse (VString s) = Return (new_Uint8Array 16) /\
    parse (VString (fst (toHex u))) = Return (new_Uint8Array 16) /\
    equals [VString s; VUUID u] = Return true.
Proof.
  apply (bytes_string_roundtrip (new_Uint8Array 16)). reflexivity.
Defined.



Lemma version_returns_iff_witness :
  version (VUUID (mkUUID [x01; x02; x03] None None)) = Throw (InvalidByteLength 3).
Proof.
  apply (proj2 (version_returns_iff (VUUID (mkUUID [x01; x02; x03] None None)))
           [x01; x02; x03]).
  - reflexivity.
  - simpl. discriminate.
Defined.
